(** * Plant-Game: the simulation core of [src/Plant-Game.tsx]

    The React component [App] keeps a water level, a watering gesture with
    two one-shot timers, a set of unhealthy ("bad") leaves, seven animated
    leaf scales and a derived growth level.  This file embeds that core:

    - JavaScript numbers are modelled as exact rationals ([Q]); the
      arithmetic of the source ([+], [-], [*], [/], [Math.min], [Math.max],
      [Math.floor], [<]) is the arithmetic of [Q].  The three numeric
      formulas are also written over binary64 floats ([chargeRule64],
      [decayRule64], [getBadLeafChance64]) and evaluated at the points the
      statements name, and where rounding makes a difference (two water
      levels with one damage chance) the difference is shown on them.
    - [useState]/[useRef] cells are fields of one [State] record; a state
      setter together with the re-render and the effects it triggers is one
      atomic update.
    - [setTimeout]/[clearTimeout] are a list of pending timers, each with an
      identifier, the milliseconds it still has to wait and the closure it
      will run; [elapse] lets time pass one millisecond at a time.
    - [setInterval] callbacks, [Math.random] draws, ray picking and the values
      produced by the animation library are inputs of the model ([Event]). *)

From Stdlib Require Import QArith Qround Qminmax Lqa ZArith Lia List Bool.
From Stdlib Require Import PrimFloat.

#[local] Set Warnings "-abstract-large-number,-inexact-float".
From stdpp Require Import gmap.

(** ** Data *)

(** Configuration of one [api.start] transition: the physical spring of
    [{ tension, friction }] or the fixed-length easing of [{ duration }]. *)
Inductive SpringConfig : Type :=
| Physics (tension friction : nat)
| Duration (ms : nat).

(** One entry of [leafSprings]: [scale] is what [spring.scale.get()] returns,
    [goal] the value the last update asked for. *)
Record Spring : Type := mkSpring {
  scale : Q;
  goal : Q;
  config : SpringConfig
}.

Inductive Material : Type := healthyMaterial | badMaterial.

(** One entry of [leafRefs.current]. *)
Record Mesh : Type := mkMesh {
  material : Material;
  meshScale : Q;
  userDataIndex : nat
}.

(** The closures handed to [setTimeout]. *)
Inductive Callback : Type :=
| HoldFired              (* lines 96-103 *)
| SessionFired           (* lines 99-102 *)
| PruneFired (i : nat).  (* lines 322-326 *)

Record Timer : Type := mkTimer {
  tid : nat;
  remaining : nat;
  callback : Callback
}.

(** The two interval callbacks of the water effect (lines 70-90). *)
Inductive MoistureRule : Type := Charge | Decay.

Record State : Type := mkState {
  waterLevel : Q;
  waterLevelRef : Q;
  watering : bool;
  showWaterEffect : bool;
  holding : bool;
  holdTimeout : option nat;
  wateringTimeout : option nat;
  moistureInterval : option MoistureRule;
  growthLevel : Q;
  growthLevelRef : Q;
  badLeaves : gset nat;
  leafRefs : list Mesh;
  leafSprings : list Spring;
  timers : list Timer;
  nextTimerId : nat
}.

(** Field updates. *)
Definition set_water (w : Q) (s : State) : State :=
  mkState w w (watering s) (showWaterEffect s) (holding s) (holdTimeout s)
    (wateringTimeout s) (moistureInterval s) (growthLevel s) (growthLevelRef s)
    (badLeaves s) (leafRefs s) (leafSprings s) (timers s) (nextTimerId s).

Definition set_wateringFlag (b : bool) (r : option MoistureRule) (s : State) : State :=
  mkState (waterLevel s) (waterLevelRef s) b (showWaterEffect s) (holding s)
    (holdTimeout s) (wateringTimeout s) r (growthLevel s) (growthLevelRef s)
    (badLeaves s) (leafRefs s) (leafSprings s) (timers s) (nextTimerId s).

Definition setShowWaterEffect (b : bool) (s : State) : State :=
  mkState (waterLevel s) (waterLevelRef s) (watering s) b (holding s)
    (holdTimeout s) (wateringTimeout s) (moistureInterval s) (growthLevel s)
    (growthLevelRef s) (badLeaves s) (leafRefs s) (leafSprings s) (timers s)
    (nextTimerId s).

Definition setHolding (b : bool) (s : State) : State :=
  mkState (waterLevel s) (waterLevelRef s) (watering s) (showWaterEffect s) b
    (holdTimeout s) (wateringTimeout s) (moistureInterval s) (growthLevel s)
    (growthLevelRef s) (badLeaves s) (leafRefs s) (leafSprings s) (timers s)
    (nextTimerId s).

Definition set_holdTimeout (r : option nat) (s : State) : State :=
  mkState (waterLevel s) (waterLevelRef s) (watering s) (showWaterEffect s)
    (holding s) r (wateringTimeout s) (moistureInterval s) (growthLevel s)
    (growthLevelRef s) (badLeaves s) (leafRefs s) (leafSprings s) (timers s)
    (nextTimerId s).

Definition set_wateringTimeout (r : option nat) (s : State) : State :=
  mkState (waterLevel s) (waterLevelRef s) (watering s) (showWaterEffect s)
    (holding s) (holdTimeout s) r (moistureInterval s) (growthLevel s)
    (growthLevelRef s) (badLeaves s) (leafRefs s) (leafSprings s) (timers s)
    (nextTimerId s).

Definition set_growth (g : Q) (s : State) : State :=
  mkState (waterLevel s) (waterLevelRef s) (watering s) (showWaterEffect s)
    (holding s) (holdTimeout s) (wateringTimeout s) (moistureInterval s) g g
    (badLeaves s) (leafRefs s) (leafSprings s) (timers s) (nextTimerId s).

Definition set_badLeaves (b : gset nat) (s : State) : State :=
  mkState (waterLevel s) (waterLevelRef s) (watering s) (showWaterEffect s)
    (holding s) (holdTimeout s) (wateringTimeout s) (moistureInterval s)
    (growthLevel s) (growthLevelRef s) b (leafRefs s) (leafSprings s)
    (timers s) (nextTimerId s).

Definition set_leafRefs (l : list Mesh) (s : State) : State :=
  mkState (waterLevel s) (waterLevelRef s) (watering s) (showWaterEffect s)
    (holding s) (holdTimeout s) (wateringTimeout s) (moistureInterval s)
    (growthLevel s) (growthLevelRef s) (badLeaves s) l (leafSprings s)
    (timers s) (nextTimerId s).

Definition set_leafSprings (l : list Spring) (s : State) : State :=
  mkState (waterLevel s) (waterLevelRef s) (watering s) (showWaterEffect s)
    (holding s) (holdTimeout s) (wateringTimeout s) (moistureInterval s)
    (growthLevel s) (growthLevelRef s) (badLeaves s) (leafRefs s) l
    (timers s) (nextTimerId s).

Definition set_timers (l : list Timer) (n : nat) (s : State) : State :=
  mkState (waterLevel s) (waterLevelRef s) (watering s) (showWaterEffect s)
    (holding s) (holdTimeout s) (wateringTimeout s) (moistureInterval s)
    (growthLevel s) (growthLevelRef s) (badLeaves s) (leafRefs s)
    (leafSprings s) l n.

(** ** Timers *)

(** [setTimeout(cb, delay)]: a fresh identifier, the timer queued last. *)
Definition setTimeout (cb : Callback) (delay : nat) (s : State) : State * nat :=
  (set_timers (timers s ++ [mkTimer (nextTimerId s) delay cb])
              (S (nextTimerId s)) s,
   nextTimerId s).

Definition clearTimeout (id : nat) (s : State) : State :=
  set_timers (List.filter (fun t => negb (Nat.eqb (tid t) id)) (timers s))
             (nextTimerId s) s.

(** [if (ref.current) clearTimeout(ref.current)]. *)
Definition clearRef (r : option nat) (s : State) : State :=
  match r with
  | Some id => clearTimeout id s
  | None => s
  end.

(** ** MoistureModel (lines 70-90) *)

(** The effect body: which interval is installed for a value of [watering]. *)
Definition waterEffect (w : bool) : MoistureRule :=
  if w then Charge else Decay.

Definition chargeRule (w : Q) : Q := Qmin 1 (w + 0.02).
Definition decayRule (w : Q) : Q := Qmax 0 (w - 0.002).

(** One firing of the installed 100ms interval: the updater passed to
    [setWaterLevel], which also writes [waterLevelRef.current]. *)
Definition moistureTick (s : State) : State :=
  match moistureInterval s with
  | Some Charge => set_water (chargeRule (waterLevel s)) s
  | Some Decay => set_water (decayRule (waterLevel s)) s
  | None => s
  end.

(** [setWatering(b)]: when the value changes the component re-renders and the
    effect with dependency [[watering]] clears its interval and installs the
    one for the new value; an unchanged value does nothing. *)
Definition setWatering (b : bool) (s : State) : State :=
  if Bool.eqb (watering s) b then s
  else set_wateringFlag b (Some (waterEffect b)) s.

(** ** WateringInteraction (lines 93-122) *)

Definition handlePlantAreaPointerDown (s : State) : State :=
  let s1 := clearRef (wateringTimeout s) s in
  let s2 := setHolding true s1 in
  let '(s3, id) := setTimeout HoldFired 1000 s2 in
  set_holdTimeout (Some id) s3.

Definition handlePlantAreaPointerUp (s : State) : State :=
  let s1 := setHolding false s in
  let s2 := clearRef (holdTimeout s1) s1 in
  let s3 := clearRef (wateringTimeout s2) s2 in
  if watering s then setShowWaterEffect false (setWatering false s3) else s3.

Definition handlePlantAreaPointerLeave (s : State) : State :=
  let s1 := setHolding false s in
  let s2 := clearRef (holdTimeout s1) s1 in
  let s3 := clearRef (wateringTimeout s2) s2 in
  if watering s then setShowWaterEffect false (setWatering false s3) else s3.

(** ** LeafGrowthAnimator: [api.start] *)

(** [api.start(idx => ...)]: the function gives, per spring, the new goal and
    configuration, or [None] for the empty update [{}]. *)
Definition apiStart (f : nat -> option (Q * SpringConfig))
    (springs : list Spring) : list Spring :=
  imap (fun idx sp =>
          match f idx with
          | Some (g, c) => mkSpring (scale sp) g c
          | None => sp
          end) springs.

Definition defaultSpring : SpringConfig := Physics 180 18.

Definition onlyLeaf (i : nat) (g : Q) (c : SpringConfig)
    (idx : nat) : option (Q * SpringConfig) :=
  if Nat.eqb idx i then Some (g, c) else None.

(** ** Timer callbacks *)

Definition setMaterial (m : Material) (leaf : Mesh) : Mesh :=
  mkMesh m (meshScale leaf) (userDataIndex leaf).

(** The closure of lines 322-326.  [leafRefs.current[i].material = ...]
    throws when there is no leaf [i]; the statements after it are then not
    run. *)
Definition pruneTimeout (i : nat) (s : State) : State :=
  let s1 := set_badLeaves (badLeaves s ∖ {[i]}) s in
  match leafRefs s1 !! i with
  | Some leaf =>
      let s2 := set_leafRefs (<[i := setMaterial healthyMaterial leaf]> (leafRefs s1)) s1 in
      set_leafSprings (apiStart (onlyLeaf i 1 (Duration 22000)) (leafSprings s2)) s2
  | None => s1
  end.

Definition runCallback (cb : Callback) (s : State) : State :=
  match cb with
  | HoldFired =>
      let s1 := setShowWaterEffect true (setWatering true s) in
      let '(s2, id) := setTimeout SessionFired 1200 s1 in
      set_wateringTimeout (Some id) s2
  | SessionFired => setShowWaterEffect false (setWatering false s)
  | PruneFired i => pruneTimeout i s
  end.

Definition age (t : Timer) : Timer :=
  mkTimer (tid t) (pred (remaining t)) (callback t).

Definition isDue (t : Timer) : bool := Nat.eqb (remaining t) 0.

(** One millisecond passes: every pending timer waits one millisecond less,
    and those that reach zero are taken off the queue and run in the order
    they were queued.  No callback of the source clears a timer. *)
Definition tick_ms (s : State) : State :=
  let aged := map age (timers s) in
  fold_left (fun st t => runCallback (callback t) st)
            (List.filter isDue aged)
            (set_timers (List.filter (fun t => negb (isDue t)) aged)
                        (nextTimerId s) s).

Definition elapse (d : nat) (s : State) : State := Nat.iter d tick_ms s.

(** ** LeafHealthProcess (lines 286-305) *)

Definition getBadLeafChance (w : Q) : Q := 0.01 + (1 - w) * 0.24.

(** [x < y] on numbers. *)
Definition Qltb (x y : Q) : bool := negb (Qle_bool y x).

(** [leafRefs.current.map((_, i) => i).filter(i => !badLeaves.current.has(i))]. *)
Definition candidates (s : State) : list nat :=
  List.filter (fun i => negb (bool_decide (i ∈ badLeaves s)))
              (seq 0 (length (leafRefs s))).

(** [arr[Math.floor(r * arr.length)]]: [undefined] outside the array. *)
Definition pickIndex (r : Q) (arr : list nat) : option nat :=
  let k := Qfloor (r * inject_Z (Z.of_nat (length arr))) in
  if (k <? 0)%Z then None else arr !! Z.to_nat k.

(** One firing of the 1000ms interval, with the two [Math.random()] draws it
    may make.  [None] is an uncaught [TypeError] ([leaf] undefined at
    [leaf.material = ...]), raised before anything is written. *)
Definition badLeafTick (r1 r2 : Q) (s : State) : option State :=
  let chance := getBadLeafChance (waterLevelRef s) in
  if Qltb r1 chance then
    let cands := candidates s in
    if (0 <? length cands)%nat then
      match pickIndex r2 cands with
      | Some badIndex =>
          match leafRefs s !! badIndex with
          | Some leaf =>
              let s1 := set_leafRefs
                          (<[badIndex := setMaterial badMaterial leaf]> (leafRefs s)) s in
              Some (set_badLeaves ({[badIndex]} ∪ badLeaves s1) s1)
          | None => None
          end
      | None => None
      end
    else Some s
  else Some s.

(** The damage step run over a list of draws; it stops at the first error. *)
Fixpoint badLeafTicks (draws : list (Q * Q)) (s : State) : option State :=
  match draws with
  | [] => Some s
  | (r1, r2) :: rest =>
      match badLeafTick r1 r2 s with
      | Some s' => badLeafTicks rest s'
      | None => None
      end
  end.

(** ** Pruning (lines 308-329) *)

(** [hit] is [intersects[0].object.userData.index] when the ray meets a leaf. *)
Definition onClick (hit : option nat) (s : State) : State :=
  match hit with
  | Some i =>
      if bool_decide (i ∈ badLeaves s) then
        let s1 := set_leafSprings
                    (apiStart (onlyLeaf i 0 defaultSpring) (leafSprings s)) s in
        fst (setTimeout (PruneFired i) 600 s1)
      else s
  | None => s
  end.

(** ** The animation loop (lines 333-356) *)

(** [leaf.scale.set(s, s, s)] for every leaf that has a spring. *)
Definition syncMeshes (springs : list Spring) (leaves : list Mesh) : list Mesh :=
  imap (fun i leaf =>
          match springs !! i with
          | Some sp => mkMesh (material leaf) (scale sp) (userDataIndex leaf)
          | None => leaf
          end) leaves.

(** The second [forEach]: [total] after visiting the leaves [0 .. n-1]. *)
Definition growthTotal (springs : list Spring) (bad : gset nat) (n : nat) : Q :=
  fold_left (fun total i =>
               match springs !! i with
               | Some sp => if bool_decide (i ∈ bad) then total
                            else (total + scale sp)%Q
               | None => total
               end) (seq 0 n) 0%Q.

Definition leafTotal : Q := 7.

Definition animate (s : State) : State :=
  let s1 := set_leafRefs (syncMeshes (leafSprings s) (leafRefs s)) s in
  let total := growthTotal (leafSprings s1) (badLeaves s1) (length (leafRefs s1)) in
  set_growth (total / leafTotal)%Q s1.

(** The animation library moves the current values of the springs between
    two frames; the new values are an input. *)
Fixpoint moveSprings (vals : list Q) (springs : list Spring) : list Spring :=
  match vals, springs with
  | v :: vals', sp :: springs' =>
      mkSpring v (goal sp) (config sp) :: moveSprings vals' springs'
  | _, _ => springs
  end.

Definition springFrame (vals : list Q) (s : State) : State :=
  set_leafSprings (moveSprings vals (leafSprings s)) s.

(** ** Mounting *)

(** The hooks of the first render: [useState], [useRef] and
    [useSprings(7, i => ({ scale: 1, config: ... }))]. *)
Definition initialRender : State :=
  mkState 1 1 false false false None None None 0 0 ∅ []
          (map (fun _ => mkSpring 1 1 defaultSpring) (seq 0 7)) [] 1.

(** The six side leaves and the top leaf, each created with the healthy
    material and [scale.set(0, 0, 0)]. *)
Definition createLeaves : list Mesh :=
  map (fun i => mkMesh healthyMaterial 0 i) (seq 0 6) ++ [mkMesh healthyMaterial 0 6].

(** The effects after the first render: the water effect installs its
    interval, the scene effect builds the leaves and calls
    [api.start(i => ({ scale: 1, config: ... }))]. *)
Definition mountEffects (s : State) : State :=
  let s1 := set_wateringFlag (watering s) (Some (waterEffect (watering s))) s in
  let s2 := set_leafRefs createLeaves s1 in
  set_leafSprings (apiStart (fun _ => Some (1%Q, defaultSpring)) (leafSprings s2)) s2.

Definition init : State := mountEffects initialRender.

(** ** The event loop *)

Inductive Event : Type :=
| PointerDown
| PointerUp
| PointerLeave
| Elapse (d : nat)
| MoistureTick
| BadLeafTick (r1 r2 : Q)
| Click (hit : option nat)
| SpringFrame (vals : list Q)
| AnimationFrame.

Definition step (s : State) (e : Event) : State :=
  match e with
  | PointerDown => handlePlantAreaPointerDown s
  | PointerUp => handlePlantAreaPointerUp s
  | PointerLeave => handlePlantAreaPointerLeave s
  | Elapse d => elapse d s
  | MoistureTick => moistureTick s
  | BadLeafTick r1 r2 =>
      match badLeafTick r1 r2 s with
      | Some s' => s'
      | None => s
      end
  | Click hit => onClick hit s
  | SpringFrame vals => springFrame vals s
  | AnimationFrame => animate s
  end.

Definition run (tr : list Event) (s : State) : State := fold_left step tr s.

(** States reached from the mounted component by some sequence of events. *)
Inductive Reachable : State -> Prop :=
| reach_init : Reachable init
| reach_step s e : Reachable s -> Reachable (step s e).

(** The contract of the animation library on the values it reports:
    every leaf scale lies in [[0,1]]. *)
Definition inUnit (q : Q) : Prop := (0 <= q /\ q <= 1)%Q.

Definition scalesInUnit (e : Event) : Prop :=
  match e with
  | SpringFrame vals => Forall inUnit vals
  | _ => True
  end.

(** Number of pending prune sequences of leaf [i]. *)
Definition isPruneOf (i : nat) (t : Timer) : bool :=
  match callback t with
  | PruneFired j => Nat.eqb j i
  | _ => false
  end.

Definition pruneInFlight (i : nat) (s : State) : nat :=
  length (List.filter (isPruneOf i) (timers s)).

(** ** Invariants, views and predicates of the statements *)

(** The queue after [if (ref) clearTimeout(ref)]. *)
Definition cleared (r : option nat) (l : list Timer) : list Timer :=
  match r with
  | Some id => List.filter (fun t => negb (Nat.eqb (tid t) id)) l
  | None => l
  end.

(** The state cell and the ref agree, the level is in range, and the
    installed interval is the one of the current [watering] value. *)
Definition WaterInv (s : State) : Prop :=
  waterLevelRef s = waterLevel s /\
  inUnit (waterLevel s) /\
  moistureInterval s = Some (waterEffect (watering s)).

(** The state after [n] moisture ticks and nothing else. *)
Definition dryTicks (n : nat) : State := run (List.repeat MoistureTick n) init.

(** Seven meshes, seven springs, and only existing leaves are unhealthy. *)
Definition ShapeInv (s : State) : Prop :=
  length (leafRefs s) = 7%nat /\
  length (leafSprings s) = 7%nat /\
  forall i, i ∈ badLeaves s -> (i < 7)%nat.

(** What one visit of the second [forEach] adds to [total]. *)
Definition contribution (springs : list Spring) (bad : gset nat) (i : nat) : Q :=
  match springs !! i with
  | Some sp => if bool_decide (i ∈ bad) then 0%Q else scale sp
  | None => 0%Q
  end.

(** Sum of a list of numbers. *)
Definition Qsum (l : list Q) : Q := fold_right Qplus 0%Q l.

(** The scales of the leaves that are not in the unhealthy set, in leaf
    order. *)
Definition healthyScales (springs : list Spring) (bad : gset nat) : list Q :=
  map (fun p => scale (snd p))
      (List.filter (fun p => negb (bool_decide (fst p ∈ bad)))
                   (imap pair springs)).

(** The leaves a frame counts have their scale in [[0,1]]. *)
Definition healthyScalesInUnit (s : State) : Prop :=
  forall i sp, leafSprings s !! i = Some sp -> i ∉ badLeaves s -> inUnit (scale sp).

(** Along a run, every animation frame finds the counted scales in range. *)
Fixpoint framesInUnit (tr : list Event) (s : State) : Prop :=
  match tr with
  | [] => True
  | e :: tr' =>
      (e = AnimationFrame -> healthyScalesInUnit s) /\ framesInUnit tr' (step s e)
  end.

(** Executable forms of the frame condition. *)
Definition healthyScalesInUnitb (s : State) : bool :=
  forallb (fun p => bool_decide (fst p ∈ badLeaves s) ||
                    (Qle_bool 0 (scale (snd p)) && Qle_bool (scale (snd p)) 1))
          (imap pair (leafSprings s)).

Fixpoint framesInUnitb (tr : list Event) (s : State) : bool :=
  match tr with
  | [] => true
  | e :: tr' =>
      (match e with AnimationFrame => healthyScalesInUnitb s | _ => true end)
      && framesInUnitb tr' (step s e)
  end.

(** A state with every leaf unhealthy: seven damage ticks that all hit. *)
Definition allBad : State := run (List.repeat (BadLeafTick 0 0) 7) init.

(** Leaf [i] exists in both stores. *)
Definition leafExists (i : nat) (s : State) : Prop :=
  (i < length (leafRefs s))%nat /\ (i < length (leafSprings s))%nat.

(** What the closure of lines 322-326 establishes for leaf [i]. *)
Definition regrowing (i : nat) (s : State) : Prop :=
  (i ∉ badLeaves s) /\
  (exists leaf, leafRefs s !! i = Some leaf /\ material leaf = healthyMaterial) /\
  (exists sp, leafSprings s !! i = Some sp /\
              goal sp = 1%Q /\ config sp = Duration 22000).

(** A prune closure of leaf [i] is queued and will run in [r] milliseconds. *)
Definition prunePending (i r : nat) (s : State) : Prop :=
  exists t, In t (timers s) /\ callback t = PruneFired i /\ remaining t = r.

(** The part of the state the gesture reads and writes: the [watering]
    flag, the two timer refs, the identifier counter and the queued hold and
    session timers. *)
Record Gesture : Type := mkGesture {
  gWatering : bool;
  gHold : option nat;
  gSession : option nat;
  gNext : nat;
  gTimers : list Timer
}.

Definition isGesture (t : Timer) : bool :=
  match callback t with
  | HoldFired | SessionFired => true
  | PruneFired _ => false
  end.

Definition view (s : State) : Gesture :=
  mkGesture (watering s) (holdTimeout s) (wateringTimeout s) (nextTimerId s)
            (List.filter isGesture (timers s)).

(** The handlers and the clock, read on that part alone. *)
Definition vrun (v : Gesture) (cb : Callback) : Gesture :=
  match cb with
  | HoldFired =>
      mkGesture true (gHold v) (Some (gNext v)) (S (gNext v))
                (gTimers v ++ [mkTimer (gNext v) 1200 SessionFired])
  | SessionFired =>
      mkGesture false (gHold v) (gSession v) (gNext v) (gTimers v)
  | PruneFired _ => v
  end.

Definition vtick (v : Gesture) : Gesture :=
  let aged := map age (gTimers v) in
  fold_left (fun w t => vrun w (callback t))
            (List.filter isDue aged)
            (mkGesture (gWatering v) (gHold v) (gSession v) (gNext v)
                       (List.filter (fun t => negb (isDue t)) aged)).

Definition vdown (v : Gesture) : Gesture :=
  mkGesture (gWatering v) (Some (gNext v)) (gSession v) (S (gNext v))
            (cleared (gSession v) (gTimers v) ++ [mkTimer (gNext v) 1000 HoldFired]).

Definition vup (v : Gesture) : Gesture :=
  mkGesture false (gHold v) (gSession v) (gNext v)
            (cleared (gSession v) (cleared (gHold v) (gTimers v))).

(** No hold or session timer is queued and no session is running. *)
Definition idle (s : State) : Prop :=
  watering s = false /\ List.filter isGesture (timers s) = [].

(** A run without watering input: no pointer-down. *)
Definition noPointerDown (tr : list Event) : Prop :=
  Forall (fun e => e <> PointerDown) tr.

(** ** The numeric formulas in binary64

    [Math.min]/[Math.max] on numbers that are not NaN. *)
Definition min64 (a b : float) : float := if (b <? a)%float then b else a.
Definition max64 (a b : float) : float := if (a <? b)%float then b else a.

Definition chargeRule64 (w : float) : float := min64 1 (w + 0.02)%float.
Definition decayRule64 (w : float) : float := max64 0 (w - 0.002)%float.
Definition getBadLeafChance64 (w : float) : float :=
  (0.01 + (1 - w) * 0.24)%float.

(** ** Clock (lines 42-55) *)

(** [const duration = 60 * 1000]. *)
Definition dayDuration : Z := 60 * 1000.

(** [(elapsed % duration) / duration], with [elapsed = Date.now() - start]
    an integer number of milliseconds; [%] takes the sign of [elapsed]. *)
Definition dayProgress (elapsed : Z) : Q :=
  (inject_Z (Z.rem elapsed dayDuration) / inject_Z dayDuration)%Q.

(** ** GrowthHistory (lines 58-67) *)

(** [arr.slice(-k)]: the last [k] elements, or all of them. *)
Definition sliceLast {A : Type} (k : nat) (arr : list A) : list A :=
  skipn (length arr - k) arr.

(** One firing of the 1000ms interval with the current
    [growthLevelRef.current]. *)
Definition historyTick (history : list Q) (g : Q) : list Q :=
  sliceLast 29 history ++ [g].

(** The history after the samples of a run, oldest first. *)
Definition historyRun (samples : list Q) : list Q :=
  fold_left historyTick samples [].

(** ** Indicators (lines 561-623, 743, 797, 834) *)

(** [Math.round]: the nearest integer, halves upwards. *)
Definition mathRound (x : Q) : Z := Qfloor (x + (1 # 2))%Q.

(** [Math.round(level * 100)] of the water and growth bars. *)
Definition percentLabel (level : Q) : Z := mathRound (level * 100)%Q.

(** [Math.max(2, progress * 100)] of the day bar. *)
Definition dayBarWidth (progress : Q) : Q := Qmax 2 (progress * 100)%Q.

(** [growthHistory.map(v => Math.round(v * 100))]. *)
Definition chartData (growthHistory : list Q) : list Z :=
  map percentLabel growthHistory.

(** The number in [`${i - growthHistory.length + 1}s`], per entry. *)
Definition chartLabels (growthHistory : list Q) : list Z :=
  imap (fun i _ => (Z.of_nat i - Z.of_nat (length growthHistory) + 1)%Z)
       growthHistory.

(** ** SlidingGraph (lines 482-561) *)

(** The three state cells of the panel; a handler closure holds the values
    of the render that created it. *)
Record Panel : Type := mkPanel {
  open : bool;
  dragStartY : option Q;
  panelY : Q
}.

Definition initialPanel : Panel := mkPanel false None 0%Q.

(** [onMouseDown]: [setDragStartY(e.clientY)]. *)
Definition onMouseDown (clientY : Q) (st : Panel) : Panel :=
  mkPanel (open st) (Some clientY) (panelY st).

(** [onTouchStart]: only with exactly one touch. *)
Definition onTouchStart (touches : list Q) (st : Panel) : Panel :=
  match touches with
  | [y] => mkPanel (open st) (Some y) (panelY st)
  | _ => st
  end.

(** The body shared by [onMouseMove] and [onTouchMove]: [c] is the render
    the closure was created in, [st] the current cells. *)
Definition dragTo (c : Panel) (clientY : Q) (st : Panel) : Panel :=
  match dragStartY c with
  | Some y0 =>
      let delta := (clientY - y0)%Q in
      if open c
      then mkPanel (open st) (dragStartY st) (200 + Qmax (-200) (Qmin 0 delta))%Q
      else mkPanel (open st) (dragStartY st) (Qmax 0 (Qmin 200 delta))%Q
  | None => st
  end.

Definition onMouseMove (c : Panel) (clientY : Q) (st : Panel) : Panel :=
  dragTo c clientY st.

Definition onTouchMove (c : Panel) (touches : list Q) (st : Panel) : Panel :=
  match touches with
  | [y] => dragTo c y st
  | _ => st
  end.

(** The body shared by [onMouseUp] and [onTouchEnd]. *)
Definition onMouseUp (c : Panel) (st : Panel) : Panel :=
  match dragStartY c with
  | Some _ =>
      if open c
      then mkPanel (if Qltb (panelY c) 100%Q then false else open st) None 0%Q
      else mkPanel (if Qltb 100%Q (panelY c) then true else open st) None 0%Q
  | None => st
  end.

Definition onTouchEnd (c : Panel) (st : Panel) : Panel := onMouseUp c st.

(** [const translateY = open ? 0 + panelY : -180 + panelY]. *)
Definition translateY (st : Panel) : Q :=
  if open st then (0 + panelY st)%Q else (-180 + panelY st)%Q.

Inductive PanelEvent : Type :=
| MouseDown (clientY : Q)
| TouchStart (touches : list Q)
| MouseMove (c : Panel) (clientY : Q)
| TouchMove (c : Panel) (touches : list Q)
| MouseUp (c : Panel)
| TouchEnd (c : Panel).

Definition panelStep (st : Panel) (e : PanelEvent) : Panel :=
  match e with
  | MouseDown y => onMouseDown y st
  | TouchStart ts => onTouchStart ts st
  | MouseMove c y => onMouseMove c y st
  | TouchMove c ts => onTouchMove c ts st
  | MouseUp c => onMouseUp c st
  | TouchEnd c => onTouchEnd c st
  end.

(** ** Invariants of the added statements *)

(** The ref of the growth level and the effect flag mirror their cells. *)
Definition MirrorInv (s : State) : Prop :=
  growthLevelRef s = growthLevel s /\ showWaterEffect s = watering s.

(** Mesh [i] carries the index [i], and the bad material exactly when [i]
    is in the unhealthy set. *)
Definition CoherentInv (s : State) : Prop :=
  forall i leaf, leafRefs s !! i = Some leaf ->
    userDataIndex leaf = i /\
    (material leaf = badMaterial <-> i ∈ badLeaves s).

(** Pending timers have distinct identifiers below the counter, and so have
    the two refs. *)
Definition TimerInv (s : State) : Prop :=
  NoDup (map tid (timers s)) /\
  (forall t, In t (timers s) -> (tid t < nextTimerId s)%nat) /\
  (forall k, holdTimeout s = Some k -> (k < nextTimerId s)%nat) /\
  (forall k, wateringTimeout s = Some k -> (k < nextTimerId s)%nat).

(** ** Runs and levels used as examples *)

(** All seven leaves are damaged and leaf 0 is clicked twice, 590 ms apart;
    the first closure heals it, a damage tick hits it again (it is the only
    candidate) and it is clicked a third time.  The closure of the second
    click then heals it 290 ms into the shrink started by the third, and the
    next frame reads its scale slightly below the goal 0 of that shrink. *)
Definition overshootRun : list Event :=
  List.repeat (BadLeafTick 0 0) 7 ++
  [Click (Some 0%nat); Elapse 590; Click (Some 0%nat); Elapse 10;
   Elapse 200; BadLeafTick 0 0; Elapse 100; Click (Some 0%nat); Elapse 290;
   SpringFrame [(-7 # 10000)%Q]; AnimationFrame].

(** Two water levels the doubles of the program reach: 265 decay ticks from
    the initial level, and 385 decay ticks followed by the 12 charge ticks of
    one watering session. *)
Definition levelA64 : float := Nat.iter 265 decayRule64 1%float.
Definition levelB64 : float :=
  Nat.iter 12 chargeRule64 (Nat.iter 385 decayRule64 1%float).

(** * Properties *)

(** ** Generic preservation through timers *)

Section Preservation.
Variable P : State -> Prop.
Hypothesis P_callback : forall cb s, P s -> P (runCallback cb s).
Hypothesis P_timers : forall l n s, P s -> P (set_timers l n s).

Lemma callbacks_preserve (due : list Timer) (s : State) :
  P s -> P (fold_left (fun st t => runCallback (callback t) st) due s).
Proof using P_callback.
  revert s. induction due as [|t due IH]; intros s Hs; simpl; auto.
Qed.

Lemma tick_ms_preserves (s : State) : P s -> P (tick_ms s).
Proof using P_callback P_timers.
  intros Hs. unfold tick_ms. apply callbacks_preserve. now apply P_timers.
Qed.

Lemma elapse_preserves (d : nat) (s : State) : P s -> P (elapse d s).
Proof using P_callback P_timers.
  intros Hs. unfold elapse. induction d as [|d IH]; simpl; auto.
  now apply tick_ms_preserves.
Qed.
End Preservation.

(** Clearing a timer only touches the queue. *)
Lemma clearRef_eq (r : option nat) (s : State) :
  clearRef r s = set_timers (cleared r (timers s)) (nextTimerId s) s.
Proof. destruct r; [reflexivity | now destruct s]. Qed.

Ltac unfold_ops :=
  unfold handlePlantAreaPointerDown, handlePlantAreaPointerUp,
    handlePlantAreaPointerLeave, runCallback, pruneTimeout, onClick,
    springFrame, animate, moistureTick, badLeafTick in *;
  rewrite ?clearRef_eq in *;
  unfold setWatering, setTimeout in *.

(** Reduce field reads of updated states, and nothing else. *)
Ltac fields :=
  cbn [waterLevel waterLevelRef watering showWaterEffect holding holdTimeout
       wateringTimeout moistureInterval growthLevel growthLevelRef badLeaves
       leafRefs leafSprings timers nextTimerId set_water set_wateringFlag
       setShowWaterEffect setHolding set_holdTimeout set_wateringTimeout
       set_growth set_badLeaves set_leafRefs set_leafSprings set_timers
       Bool.eqb fst snd] in *.

Ltac unfold_handlers := unfold_ops; simpl.

(** ** The water level *)

Lemma chargeRule_unit (w : Q) : inUnit w -> inUnit (chargeRule w).
Proof.
  unfold inUnit, chargeRule. intros [H0 H1].
  destruct (Q.min_spec 1 (w + 0.02)) as [[? ->] | [? ->]]; lra.
Qed.

Lemma decayRule_unit (w : Q) : inUnit w -> inUnit (decayRule w).
Proof.
  unfold inUnit, decayRule. intros [H0 H1].
  destruct (Q.max_spec 0 (w - 0.002)) as [[? ->] | [? ->]]; lra.
Qed.

Lemma WaterInv_init : WaterInv init.
Proof. repeat split; cbn; unfold Qle; simpl; lia. Qed.

Lemma WaterInv_set_timers l n s : WaterInv s -> WaterInv (set_timers l n s).
Proof. intros H; exact H. Qed.

Ltac water_close :=
  unfold WaterInv in *; simpl;
  repeat match goal with
         | H : watering _ = _ |- _ => rewrite ?H in *; clear H
         end;
  simpl; intuition (auto using chargeRule_unit, decayRule_unit).

Lemma WaterInv_callback cb s : WaterInv s -> WaterInv (runCallback cb s).
Proof.
  intros H. destruct cb; unfold_handlers.
  - destruct (watering s) eqn:Hw; water_close.
  - destruct (watering s) eqn:Hw; water_close.
  - simpl. destruct (leafRefs s !! i); water_close.
Qed.

Lemma WaterInv_release s :
  WaterInv s ->
  WaterInv (let s1 := setHolding false s in
            let s2 := clearRef (holdTimeout s1) s1 in
            let s3 := clearRef (wateringTimeout s2) s2 in
            if watering s then setShowWaterEffect false (setWatering false s3)
            else s3).
Proof.
  intros H. unfold_handlers.
  destruct (watering s) eqn:Hw; water_close.
Qed.

Lemma WaterInv_step s e : WaterInv s -> WaterInv (step s e).
Proof.
  intros H. destruct e; simpl.
  - unfold_handlers. water_close.
  - now apply WaterInv_release.
  - now apply WaterInv_release.
  - apply elapse_preserves; auto using WaterInv_callback, WaterInv_set_timers.
  - unfold moistureTick. destruct H as (Href & Hu & Hi). rewrite Hi.
    destruct (watering s) eqn:Hw; water_close.
  - unfold badLeafTick.
    destruct (Qltb _ _); [|exact H].
    destruct (0 <? _)%nat; [|exact H].
    destruct (pickIndex _ _) as [k|]; [|exact H].
    destruct (leafRefs s !! k); water_close.
  - unfold onClick.
    destruct hit as [i|]; [|exact H].
    destruct (bool_decide _); water_close.
  - exact H.
  - exact H.
Qed.

Lemma reachable_WaterInv s : Reachable s -> WaterInv s.
Proof. induction 1; auto using WaterInv_init, WaterInv_step. Qed.

Lemma run_snoc tr e s : run (tr ++ [e]) s = step (run tr s) e.
Proof. unfold run. now rewrite fold_left_app. Qed.

Lemma reachable_run tr : Reachable (run tr init).
Proof.
  induction tr as [|e tr IH] using rev_ind.
  - apply reach_init.
  - rewrite run_snoc. now apply reach_step.
Qed.

Lemma rules_differ (w : Q) :
  inUnit w -> ~ (chargeRule w == decayRule w)%Q.
Proof.
  unfold inUnit, chargeRule, decayRule. intros [H0 H1].
  destruct (Q.min_spec 1 (w + 0.02)) as [[? ->] | [? ->]];
    destruct (Q.max_spec 0 (w - 0.002)) as [[? ->] | [? ->]]; lra.
Qed.

(** C1. On a moisture tick of any reachable state the water level becomes
    [min(1, w + 0.02)] when [watering] is true and [max(0, w - 0.002)]
    otherwise (the ref is written with the same value); the two candidate
    values are never equal there, so exactly one rule has been applied. *)
Theorem moisture_tick_rule (s : State) :
  Reachable s ->
  waterLevel (step s MoistureTick) =
    (if watering s then Qmin 1 (waterLevel s + 0.02)
     else Qmax 0 (waterLevel s - 0.002)) /\
  waterLevelRef (step s MoistureTick) = waterLevel (step s MoistureTick) /\
  ~ (Qmin 1 (waterLevel s + 0.02) == Qmax 0 (waterLevel s - 0.002))%Q.
Proof.
  intros Hr. destruct (reachable_WaterInv s Hr) as (Href & Hu & Hi).
  simpl. unfold moistureTick. rewrite Hi.
  split; [|split].
  - now destruct (watering s).
  - now destruct (watering s).
  - now apply rules_differ.
Qed.

Lemma moisture_tick_rule_witness :
  let s := step (step init PointerDown) (Elapse 1000) in
  Reachable s /\ watering s = true /\
  waterLevel (step s MoistureTick) =
    (if watering s then Qmin 1 (waterLevel s + 0.02)
     else Qmax 0 (waterLevel s - 0.002)).
Proof.
  intros s.
  assert (Hr : Reachable s) by (apply reach_step, reach_step, reach_init).
  split; [exact Hr|]. split; [vm_compute; reflexivity|].
  exact (proj1 (moisture_tick_rule s Hr)).
Defined.

(** ** Decay from the initial level *)

Lemma dryTicks_S n : dryTicks (S n) = moistureTick (dryTicks n).
Proof.
  unfold dryTicks. change (List.repeat MoistureTick (S n))
    with (MoistureTick :: List.repeat MoistureTick n).
  rewrite repeat_cons. now rewrite run_snoc.
Qed.

Lemma dryTicks_decay n :
  moistureInterval (dryTicks n) = Some Decay.
Proof.
  induction n as [|n IH]; [reflexivity|].
  rewrite dryTicks_S. unfold moistureTick. now rewrite IH.
Qed.

Lemma dryTicks_level_S n :
  waterLevel (dryTicks (S n)) = decayRule (waterLevel (dryTicks n)).
Proof.
  rewrite dryTicks_S. unfold moistureTick. now rewrite dryTicks_decay.
Qed.

(** In exact arithmetic the level after [n] ticks has a closed form; it
    serves below only to order the levels of successive ticks. *)
Lemma dryTicks_level n :
  (waterLevel (dryTicks n) == Qmax 0 (1 - 0.002 * inject_Z (Z.of_nat n)))%Q.
Proof.
  induction n as [|n IH].
  - change (waterLevel (dryTicks 0)) with 1%Q.
    change (inject_Z (Z.of_nat 0)) with 0%Q.
    destruct (Q.max_spec 0 (1 - 0.002 * 0)) as [[? ->] | [? ->]]; lra.
  - rewrite dryTicks_level_S. unfold decayRule.
    rewrite Nat2Z.inj_succ. unfold Z.succ. rewrite inject_Z_plus.
    change (inject_Z 1) with 1%Q.
    set (k := inject_Z (Z.of_nat n)) in *.
    set (w := waterLevel (dryTicks n)) in *.
    destruct (Q.max_spec 0 (1 - 0.002 * k)) as [[? E1] | [? E1]];
      rewrite E1 in IH;
      destruct (Q.max_spec 0 (w - 0.002)) as [[? ->] | [? ->]];
      destruct (Q.max_spec 0 (1 - 0.002 * (k + 1))) as [[? ->] | [? ->]];
      lra.
Qed.

Lemma dryTicks_decreasing n :
  (n < 500)%nat -> (waterLevel (dryTicks (S n)) < waterLevel (dryTicks n))%Q.
Proof.
  intros Hn. rewrite dryTicks_level_S. unfold decayRule.
  pose proof (dryTicks_level n) as E.
  assert (Hk : (inject_Z (Z.of_nat n) <= 499)%Q).
  { change 499%Q with (inject_Z 499). rewrite <- Zle_Qle. lia. }
  set (k := inject_Z (Z.of_nat n)) in *.
  set (w := waterLevel (dryTicks n)) in *.
  destruct (Q.max_spec 0 (1 - 0.002 * k)) as [[? E1] | [? E1]];
    rewrite E1 in E;
    destruct (Q.max_spec 0 (w - 0.002)) as [[? ->] | [? ->]]; lra.
Qed.

Lemma dryTicks_empty n :
  (500 <= n)%nat -> (waterLevel (dryTicks n) == 0)%Q.
Proof.
  intros Hn. rewrite dryTicks_level.
  assert (Hk : (500 <= inject_Z (Z.of_nat n))%Q).
  { change 500%Q with (inject_Z 500). rewrite <- Zle_Qle. lia. }
  destruct (Q.max_spec 0 (1 - 0.002 * inject_Z (Z.of_nat n))) as [[? ->] | [? ->]]; lra.
Qed.

(** C10, as stated, fails: once the pot is empty a further tick does not
    lower the level (600 and 601 ticks both leave it at 0). *)
Lemma level_not_always_decreasing :
  ~ (forall n, (waterLevel (dryTicks (S n)) < waterLevel (dryTicks n))%Q).
Proof.
  intros H. specialize (H 600%nat).
  rewrite (dryTicks_empty 601), (dryTicks_empty 600) in H by lia. lra.
Qed.

(** ** The shape of the leaf store *)

Lemma apiStart_length f springs : length (apiStart f springs) = length springs.
Proof. unfold apiStart. apply length_imap. Qed.

Lemma moveSprings_length vals springs :
  length (moveSprings vals springs) = length springs.
Proof.
  revert springs. induction vals as [|v vals IH]; intros [|sp springs]; simpl; auto.
Qed.

Lemma syncMeshes_length springs leaves :
  length (syncMeshes springs leaves) = length leaves.
Proof. unfold syncMeshes. apply length_imap. Qed.

Lemma pickIndex_In r arr k : pickIndex r arr = Some k -> In k arr.
Proof.
  unfold pickIndex. destruct (_ <? 0)%Z; [discriminate|].
  intros H. apply list_elem_of_In. eapply list_elem_of_lookup_2; eauto.
Qed.

Lemma candidates_spec s k :
  In k (candidates s) <-> (k < length (leafRefs s))%nat /\ k ∉ badLeaves s.
Proof.
  unfold candidates. rewrite filter_In, in_seq, negb_true_iff, bool_decide_eq_false.
  intuition lia.
Qed.

Lemma ShapeInv_init : ShapeInv init.
Proof. repeat split. intros i Hi. vm_compute in Hi. set_solver. Qed.

Lemma ShapeInv_set_timers l n s : ShapeInv s -> ShapeInv (set_timers l n s).
Proof. intros H; exact H. Qed.

Lemma ShapeInv_callback cb s : ShapeInv s -> ShapeInv (runCallback cb s).
Proof.
  intros (Hl & Hs & Hb). destruct cb; unfold_handlers.
  - destruct (eqb (watering s) true); repeat split; auto.
  - destruct (eqb (watering s) false); repeat split; auto.
  - destruct (leafRefs s !! i) as [leaf|]; repeat split; simpl;
      rewrite ?length_insert, ?apiStart_length; auto;
      intros j Hj; apply Hb; apply elem_of_difference in Hj; tauto.
Qed.

Lemma ShapeInv_step s e : ShapeInv s -> ShapeInv (step s e).
Proof.
  intros H. destruct e; simpl.
  - unfold_handlers. exact H.
  - unfold_handlers. destruct (watering s); [destruct (eqb _ _)|]; exact H.
  - unfold_handlers. destruct (watering s); [destruct (eqb _ _)|]; exact H.
  - apply elapse_preserves; auto using ShapeInv_callback, ShapeInv_set_timers.
  - unfold moistureTick. destruct (moistureInterval s) as [[]|]; exact H.
  - unfold badLeafTick.
    destruct (Qltb _ _); [|exact H].
    destruct (0 <? _)%nat; [|exact H].
    destruct (pickIndex _ _) as [k|] eqn:Hk; [|exact H].
    destruct (leafRefs s !! k) as [leaf|]; [|exact H].
    destruct H as (Hl & Hs & Hb).
    apply pickIndex_In, candidates_spec in Hk. destruct Hk as [Hk _].
    repeat split; simpl; rewrite ?length_insert; auto.
    intros j Hj. apply elem_of_union in Hj. destruct Hj as [Hj|Hj]; auto.
    rewrite elem_of_singleton in Hj. rewrite Hj, <- Hl. exact Hk.
  - unfold onClick. destruct hit as [i|]; [|exact H].
    destruct (bool_decide _); [|exact H].
    destruct H as (Hl & Hs & Hb).
    repeat split; simpl; rewrite ?apiStart_length; auto.
  - destruct H as (Hl & Hs & Hb).
    repeat split; simpl; rewrite ?moveSprings_length; auto.
  - destruct H as (Hl & Hs & Hb).
    repeat split; simpl; rewrite ?syncMeshes_length; auto.
Qed.

Lemma reachable_ShapeInv s : Reachable s -> ShapeInv s.
Proof. induction 1; auto using ShapeInv_init, ShapeInv_step. Qed.

(** ** The growth level *)

Lemma growthTotal_S springs bad n :
  growthTotal springs bad (S n) =
  match springs !! n with
  | Some sp => if bool_decide (n ∈ bad) then growthTotal springs bad n
               else (growthTotal springs bad n + scale sp)%Q
  | None => growthTotal springs bad n
  end.
Proof.
  unfold growthTotal. rewrite seq_S, fold_left_app. reflexivity.
Qed.

Lemma growthTotal_contribution springs bad n :
  (growthTotal springs bad (S n) ==
   growthTotal springs bad n + contribution springs bad n)%Q.
Proof.
  rewrite growthTotal_S. unfold contribution.
  destruct (springs !! n); [destruct (bool_decide _)|]; lra.
Qed.

Lemma growthTotal_bounds springs bad n :
  (forall i sp, springs !! i = Some sp -> i ∉ bad -> inUnit (scale sp)) ->
  (0 <= growthTotal springs bad n /\
   growthTotal springs bad n <= inject_Z (Z.of_nat n))%Q.
Proof.
  intros Hu. induction n as [|n [IH0 IH1]].
  - change (growthTotal springs bad 0) with 0%Q.
    change (inject_Z (Z.of_nat 0)) with 0%Q. lra.
  - rewrite growthTotal_S, Nat2Z.inj_succ. unfold Z.succ.
    rewrite inject_Z_plus. change (inject_Z 1) with 1%Q.
    destruct (springs !! n) as [sp|] eqn:Hn; [|lra].
    destruct (bool_decide (n ∈ bad)) eqn:Hb; [lra|].
    apply bool_decide_eq_false in Hb.
    destruct (Hu n sp Hn Hb). lra.
Qed.

Lemma growthTotal_app springs more bad n :
  (n <= length springs)%nat ->
  growthTotal (springs ++ more) bad n = growthTotal springs bad n.
Proof.
  induction n as [|n IH]; intros Hn; [reflexivity|].
  rewrite !growthTotal_S, IH by lia.
  now rewrite lookup_app_l by lia.
Qed.

Lemma Qsum_app l1 l2 : (Qsum (l1 ++ l2) == Qsum l1 + Qsum l2)%Q.
Proof.
  induction l1 as [|x l1 IH]; simpl; [lra|]. rewrite IH. lra.
Qed.

Lemma healthyScales_snoc springs sp bad :
  healthyScales (springs ++ [sp]) bad =
  healthyScales springs bad ++
  (if bool_decide (length springs ∈ bad) then [] else [scale sp]).
Proof.
  unfold healthyScales. rewrite imap_app, List.filter_app, map_app. f_equal.
  simpl. rewrite Nat.add_0_r. now destruct (bool_decide _).
Qed.

Lemma growthTotal_sum springs bad :
  (growthTotal springs bad (length springs) == Qsum (healthyScales springs bad))%Q.
Proof.
  induction springs as [|sp springs IH] using rev_ind; [reflexivity|].
  rewrite length_app, Nat.add_1_r, growthTotal_S.
  rewrite growthTotal_app by lia.
  rewrite list_lookup_middle by reflexivity.
  rewrite healthyScales_snoc, Qsum_app, <- IH.
  destruct (bool_decide _); simpl; lra.
Qed.

Lemma growthLevel_callback cb s : growthLevel (runCallback cb s) = growthLevel s.
Proof.
  destruct cb; unfold_handlers.
  - now destruct (eqb _ _).
  - now destruct (eqb _ _).
  - now destruct (leafRefs s !! i).
Qed.

Lemma growthLevel_elapse d s : growthLevel (elapse d s) = growthLevel s.
Proof.
  apply (elapse_preserves (fun st => growthLevel st = growthLevel s)); auto.
  intros cb st H. now rewrite growthLevel_callback.
Qed.

Lemma growthLevel_step s e :
  e <> AnimationFrame -> growthLevel (step s e) = growthLevel s.
Proof.
  intros He. destruct e; simpl; try congruence.
  - unfold_handlers. reflexivity.
  - unfold_handlers. destruct (watering s); [destruct (eqb _ _)|]; reflexivity.
  - unfold_handlers. destruct (watering s); [destruct (eqb _ _)|]; reflexivity.
  - apply growthLevel_elapse.
  - unfold moistureTick. now destruct (moistureInterval s) as [[]|].
  - unfold badLeafTick.
    destruct (Qltb _ _); [|reflexivity].
    destruct (0 <? _)%nat; [|reflexivity].
    destruct (pickIndex _ _) as [k|]; [|reflexivity].
    now destruct (leafRefs s !! k).
  - unfold onClick. destruct hit as [i|]; [|reflexivity].
    now destruct (bool_decide _).
Qed.

Lemma animate_growth_unit s :
  ShapeInv s -> healthyScalesInUnit s -> inUnit (growthLevel (animate s)).
Proof.
  intros (Hl & Hs & Hb) Hu. unfold animate. simpl.
  rewrite syncMeshes_length, Hl.
  destruct (growthTotal_bounds (leafSprings s) (badLeaves s) 7 Hu) as [H0 H1].
  change (inject_Z (Z.of_nat 7)) with 7%Q in H1.
  unfold inUnit, leafTotal. split.
  - apply Qle_shift_div_l; lra.
  - apply Qle_shift_div_r; lra.
Qed.

Lemma levels_in_unit_from tr s :
  WaterInv s -> ShapeInv s -> inUnit (growthLevel s) -> framesInUnit tr s ->
  inUnit (waterLevel (run tr s)) /\ inUnit (growthLevel (run tr s)).
Proof.
  revert s. induction tr as [|e tr IH]; intros s Hw Hs Hg Hf.
  - split; [apply Hw | exact Hg].
  - destruct Hf as [Hframe Hrest]. simpl.
    apply IH; auto using WaterInv_step, ShapeInv_step.
    destruct e; try (rewrite growthLevel_step by discriminate; exact Hg).
    apply animate_growth_unit; auto.
Qed.

Lemma animate_growth_mean s :
  ShapeInv s ->
  (growthLevel (animate s) ==
   Qsum (healthyScales (leafSprings s) (badLeaves s)) / 7)%Q.
Proof.
  intros (Hl & Hs & _). unfold animate. simpl.
  rewrite syncMeshes_length, Hl, <- Hs, growthTotal_sum. reflexivity.
Qed.

(** C2, as stated, fails for the growth level: the frame divides the sum of
    the counted scales by 7 and clamps nothing.  In [overshootRun] the only
    leaf outside the unhealthy set is read while its spring is below its
    goal 0, and the frame stores a negative growth level. *)
Lemma growth_level_leaves_unit :
  ~ (forall tr : list Event,
       inUnit (waterLevel (run tr init)) /\ inUnit (growthLevel (run tr init))).
Proof.
  intros H. destruct (H overshootRun) as [_ [H0 _]].
  vm_compute in H0. apply H0. reflexivity.
Qed.

(** C2, amended. In every state reached from the mounted component by
    moisture ticks, damage ticks, pointer gestures, clicks, elapsed time and
    frames, the water level is in [[0,1]].  The growth level is in [[0,1]]
    as long as the scales read by each animation frame (those of the leaves
    outside the unhealthy set) are in [[0,1]]; more generally the level a
    frame stores is in [[0,1]] whenever the sum of the scales it counts is
    in [[0,7]]. *)
Theorem levels_in_unit (tr : list Event) :
  inUnit (waterLevel (run tr init)) /\
  (framesInUnit tr init -> inUnit (growthLevel (run tr init))) /\
  ((0 <= Qsum (healthyScales (leafSprings (run tr init)) (badLeaves (run tr init))))%Q ->
   (Qsum (healthyScales (leafSprings (run tr init)) (badLeaves (run tr init))) <= 7)%Q ->
   inUnit (growthLevel (step (run tr init) AnimationFrame))).
Proof.
  assert (Hr : Reachable (run tr init)) by apply reachable_run.
  split; [apply (reachable_WaterInv _ Hr)|]. split.
  - intros Hf.
    apply (levels_in_unit_from tr init); auto using WaterInv_init, ShapeInv_init.
    split; cbn; unfold Qle; simpl; lia.
  - cbn [step]. unfold inUnit.
    rewrite (animate_growth_mean _ (reachable_ShapeInv _ Hr)).
    set (c := Qsum _).
    assert (E : (c / 7 * 7 == c)%Q) by field.
    intros ? ?; split; lra.
Qed.

(** C4. At a frame of any reachable state there are seven springs and the
    growth level (state cell and ref) is the sum of the scales of the leaves
    outside the unhealthy set divided by 7. *)
Theorem growth_level_mean (s : State) :
  Reachable s ->
  length (leafSprings s) = 7%nat /\
  (growthLevel (step s AnimationFrame) ==
   Qsum (healthyScales (leafSprings s) (badLeaves s)) / 7)%Q /\
  growthLevelRef (step s AnimationFrame) = growthLevel (step s AnimationFrame).
Proof.
  intros Hr. destruct (reachable_ShapeInv s Hr) as (Hl & Hs & Hb).
  split; [exact Hs|]. split; [|reflexivity].
  simpl. unfold animate. simpl.
  rewrite syncMeshes_length, Hl, <- Hs, growthTotal_sum. reflexivity.
Qed.

Lemma healthyScalesInUnitb_sound s :
  healthyScalesInUnitb s = true -> healthyScalesInUnit s.
Proof.
  unfold healthyScalesInUnitb, healthyScalesInUnit. intros H i sp Hi Hb.
  rewrite forallb_forall in H. specialize (H (i, sp)).
  simpl in H. rewrite (bool_decide_eq_false_2 _ Hb) in H. simpl in H.
  assert (Hin : In (i, sp) (imap pair (leafSprings s))).
  { apply list_elem_of_In. apply list_elem_of_lookup. exists i.
    rewrite list_lookup_imap, Hi. reflexivity. }
  apply H in Hin. apply andb_true_iff in Hin as [H0 H1].
  split; now apply Qle_bool_iff.
Qed.

Lemma framesInUnitb_sound tr s :
  framesInUnitb tr s = true -> framesInUnit tr s.
Proof.
  revert s. induction tr as [|e tr IH]; intros s H; simpl in *; [exact I|].
  apply andb_true_iff in H as [He Ht]. split; [|now apply IH].
  intros ->. now apply healthyScalesInUnitb_sound.
Qed.

Lemma levels_in_unit_witness :
  let tr := [AnimationFrame; BadLeafTick 0 0; Click (Some 0%nat);
             SpringFrame [(-0.05)%Q]; AnimationFrame; Elapse 600;
             SpringFrame [0.1%Q]; AnimationFrame; MoistureTick] in
  framesInUnit tr init /\
  inUnit (waterLevel (run tr init)) /\ inUnit (growthLevel (run tr init)) /\
  inUnit (growthLevel (step (run tr init) AnimationFrame)).
Proof.
  intros tr.
  assert (Hf : framesInUnit tr init)
    by (apply framesInUnitb_sound; vm_compute; reflexivity).
  split; [exact Hf|].
  split; [exact (proj1 (levels_in_unit tr))|].
  split; [exact (proj1 (proj2 (levels_in_unit tr)) Hf)|].
  apply (proj2 (proj2 (levels_in_unit tr))); vm_compute; discriminate.
Defined.

Lemma growth_level_mean_witness :
  let s := step (step init (BadLeafTick 0 0)) (SpringFrame [1; 0.5; 0.25]%Q) in
  Reachable s /\
  (growthLevel (step s AnimationFrame) ==
   Qsum (healthyScales (leafSprings s) (badLeaves s)) / 7)%Q.
Proof.
  intros s.
  assert (Hr : Reachable s) by (apply reach_step, reach_step, reach_init).
  split; [exact Hr | exact (proj1 (proj2 (growth_level_mean s Hr)))].
Defined.

Example growth_with_one_bad_leaf :
  let s := step (step init (BadLeafTick 0 0)) (SpringFrame [1; 0.5; 0.25]%Q) in
  badLeaves s = {[0%nat]} /\
  Qred (growthLevel (step s AnimationFrame)) = (19 # 28)%Q.
Proof. split; vm_compute; reflexivity. Qed.

(** ** The damage step when no healthy leaf is left *)

Lemma filter_none {A : Type} (f : A -> bool) (l : list A) :
  (forall x, In x l -> f x = false) -> List.filter f l = [].
Proof.
  induction l as [|x l IH]; intros H; simpl; [reflexivity|].
  rewrite (H x) by now left. apply IH. intros y Hy. apply H. now right.
Qed.

Lemma candidates_all_bad s :
  (forall i, (i < length (leafRefs s))%nat -> i ∈ badLeaves s) ->
  candidates s = [].
Proof.
  intros H. unfold candidates. apply filter_none. intros i Hi.
  apply in_seq in Hi. apply negb_false_iff, bool_decide_eq_true.
  apply H. lia.
Qed.

Lemma badLeafTick_all_bad r1 r2 s :
  (forall i, (i < length (leafRefs s))%nat -> i ∈ badLeaves s) ->
  badLeafTick r1 r2 s = Some s.
Proof.
  intros H. unfold badLeafTick. rewrite (candidates_all_bad s H). simpl.
  now destruct (Qltb _ _).
Qed.

Lemma badLeafTicks_all_bad draws s :
  (forall i, (i < length (leafRefs s))%nat -> i ∈ badLeaves s) ->
  badLeafTicks draws s = Some s.
Proof.
  intros H. induction draws as [|[r1 r2] draws IH]; simpl; [reflexivity|].
  now rewrite badLeafTick_all_bad.
Qed.

Lemma all_bad_size s :
  ShapeInv s -> (forall i, (i < 7)%nat -> i ∈ badLeaves s) ->
  size (badLeaves s) = 7%nat.
Proof.
  intros (_ & _ & Hb) Hall.
  assert (E : badLeaves s = list_to_set (seq 0 7)).
  { apply set_eq. intros i. rewrite elem_of_list_to_set, elem_of_seq.
    split; intros Hi; [split; [lia | now apply Hb] | apply Hall; lia]. }
  rewrite E. reflexivity.
Qed.

(** C7. When all seven leaves of a reachable state are unhealthy, the
    damage step run any number of times with any draws raises no error and
    leaves the state, and so the unhealthy set of cardinality 7, as it is. *)
Theorem all_unhealthy_absorbing (s : State) (draws : list (Q * Q)) :
  Reachable s ->
  (forall i, (i < 7)%nat -> i ∈ badLeaves s) ->
  size (badLeaves s) = 7%nat /\
  exists s', badLeafTicks draws s = Some s' /\
             badLeaves s' = badLeaves s /\ size (badLeaves s') = 7%nat.
Proof.
  intros Hr Hall. pose proof (reachable_ShapeInv s Hr) as Hs.
  pose proof (all_bad_size s Hs Hall) as Hsz.
  split; [exact Hsz|]. exists s. repeat split; auto.
  apply badLeafTicks_all_bad. destruct Hs as (Hl & _). now rewrite Hl.
Qed.

Lemma all_unhealthy_absorbing_witness :
  Reachable allBad /\
  (forall i, (i < 7)%nat -> i ∈ badLeaves allBad) /\
  exists s', badLeafTicks [(0, 0); (0.5, 2); (0, -1)]%Q allBad = Some s' /\
             badLeaves s' = badLeaves allBad /\ size (badLeaves s') = 7%nat.
Proof.
  assert (Hr : Reachable allBad) by apply reachable_run.
  assert (Hall : forall i, (i < 7)%nat -> i ∈ badLeaves allBad).
  { intros i Hi.
    do 7 (destruct i as [|i];
          [apply (bool_decide_eq_true_1 _); vm_compute; reflexivity|]).
    lia. }
  split; [exact Hr|]. split; [exact Hall|].
  exact (proj2 (all_unhealthy_absorbing allBad _ Hr Hall)).
Defined.

(** ** Mounting *)

(** C6, evaluated on the code. The springs are created with the value 1 and
    the goal 1, and the [api.start] of the scene effect asks for 1 again: no
    spring starts at 0, although every mesh is created with scale 0, and the
    first frame already reports full growth. *)
Theorem initial_springs_at_rest :
  leafSprings initialRender = List.repeat (mkSpring 1 1 defaultSpring) 7 /\
  leafSprings init = List.repeat (mkSpring 1 1 defaultSpring) 7 /\
  Forall (fun leaf => meshScale leaf = 0%Q) (leafRefs init) /\
  Forall (fun leaf => meshScale leaf = 1%Q) (leafRefs (step init AnimationFrame)) /\
  (growthLevel (step init AnimationFrame) == 1)%Q.
Proof.
  split; [reflexivity|]. split; [reflexivity|].
  split; [repeat constructor|]. split; [repeat constructor|].
  vm_compute. reflexivity.
Qed.

(** ** Pruning *)

(** C8, as stated, fails: leaf 0 is damaged, picked, and picked again 300ms
    later; two prune sequences of leaf 0 are then pending. *)
Lemma two_prunes_in_flight :
  ~ (forall (tr : list Event) (i : nat), (pruneInFlight i (run tr init) <= 1)%nat).
Proof.
  intros H.
  specialize (H [BadLeafTick 0 0; Click (Some 0%nat); Elapse 300;
                 Click (Some 0%nat)] 0%nat).
  vm_compute in H. lia.
Qed.

Lemma pruneInFlight_setTimeout i j d s :
  pruneInFlight i (fst (setTimeout (PruneFired j) d s)) =
  (pruneInFlight i s + (if Nat.eqb j i then 1 else 0))%nat.
Proof.
  unfold pruneInFlight. simpl. rewrite List.filter_app, length_app. simpl.
  unfold isPruneOf at 2. simpl. now destruct (Nat.eqb j i).
Qed.

(** C8, amended. A pick of leaf [i] starts a prune sequence exactly when
    [i] is in the unhealthy set at that moment: a pick of a healthy leaf (or
    of no leaf) changes nothing, and a pick of an unhealthy leaf adds one
    pending sequence for [i], leaves the sequences of the other leaves alone
    and leaves [i] in the unhealthy set, so that a further pick before the
    600ms timer fires starts a further sequence. *)
Theorem pick_starts_sequence_iff_unhealthy (s : State) (i : nat) :
  (i ∉ badLeaves s -> onClick (Some i) s = s) /\
  onClick None s = s /\
  (i ∈ badLeaves s ->
   pruneInFlight i (onClick (Some i) s) = S (pruneInFlight i s) /\
   (forall j, j <> i ->
      pruneInFlight j (onClick (Some i) s) = pruneInFlight j s) /\
   i ∈ badLeaves (onClick (Some i) s)).
Proof.
  split; [|split].
  - intros Hi. unfold onClick. now rewrite bool_decide_eq_false_2.
  - reflexivity.
  - intros Hi. unfold onClick. rewrite bool_decide_eq_true_2 by exact Hi.
    split; [|split].
    + rewrite pruneInFlight_setTimeout, Nat.eqb_refl.
      unfold pruneInFlight. simpl. lia.
    + intros j Hj. rewrite pruneInFlight_setTimeout.
      replace (Nat.eqb i j) with false
        by (symmetry; apply Nat.eqb_neq; congruence).
      unfold pruneInFlight. simpl. lia.
    + exact Hi.
Qed.

Lemma pick_starts_sequence_iff_unhealthy_witness :
  let s := run [BadLeafTick 0 0; Click (Some 0%nat); Elapse 300] init in
  0%nat ∈ badLeaves s /\
  pruneInFlight 0 s = 1%nat /\
  pruneInFlight 0 (onClick (Some 0%nat) s) = S (pruneInFlight 0 s).
Proof.
  intros s.
  assert (Hb : 0%nat ∈ badLeaves s)
    by (apply (bool_decide_eq_true_1 _); vm_compute; reflexivity).
  split; [exact Hb|]. split; [vm_compute; reflexivity|].
  exact (proj1 (proj2 (proj2 (pick_starts_sequence_iff_unhealthy s 0)) Hb)).
Defined.

(** *** The prune round trip *)

Lemma apiStart_lookup f springs i :
  apiStart f springs !! i =
  (fun sp => match f i with
             | Some (g, c) => mkSpring (scale sp) g c
             | None => sp
             end) <$> (springs !! i).
Proof. unfold apiStart. apply list_lookup_imap. Qed.

Lemma leafExists_set_timers i l n s :
  leafExists i s -> leafExists i (set_timers l n s).
Proof. intros H; exact H. Qed.

Lemma leafExists_callback i cb s :
  leafExists i s -> leafExists i (runCallback cb s).
Proof.
  unfold leafExists. intros [Hl Hs]. destruct cb as [| |j]; unfold_ops.
  - destruct (eqb _ _); fields; auto.
  - destruct (eqb _ _); fields; auto.
  - fields. destruct (leafRefs s !! j); fields;
      rewrite ?length_insert, ?apiStart_length; auto.
Qed.

Lemma pruneTimeout_regrowing i s :
  leafExists i s -> regrowing i (pruneTimeout i s).
Proof.
  intros [Hl Hs]. unfold pruneTimeout, regrowing. fields.
  destruct (lookup_lt_is_Some_2 _ _ Hl) as [leaf Hleaf].
  destruct (lookup_lt_is_Some_2 _ _ Hs) as [sp Hsp].
  rewrite Hleaf. fields. split; [|split].
  - rewrite elem_of_difference, elem_of_singleton. tauto.
  - exists (setMaterial healthyMaterial leaf). split; [|reflexivity].
    now apply list_lookup_insert_eq.
  - exists (mkSpring (scale sp) 1 (Duration 22000)).
    rewrite apiStart_lookup, Hsp. unfold onlyLeaf. rewrite Nat.eqb_refl.
    repeat split.
Qed.

Lemma regrowing_callback i cb s :
  regrowing i s -> regrowing i (runCallback cb s).
Proof.
  intros (Hb & (leaf & Hleaf & Hm) & (sp & Hsp & Hg & Hc)).
  destruct cb as [| |j].
  - unfold regrowing. unfold_ops. destruct (eqb _ _); fields; eauto 10.
  - unfold regrowing. unfold_ops. destruct (eqb _ _); fields; eauto 10.
  - unfold runCallback. destruct (decide (j = i)) as [->|Hne].
    + apply pruneTimeout_regrowing. split.
      * eapply lookup_lt_Some; eauto.
      * eapply lookup_lt_Some; eauto.
    + assert (Hb' : i ∉ badLeaves s ∖ {[j]})
        by (rewrite elem_of_difference; tauto).
      unfold pruneTimeout, regrowing. fields.
      destruct (leafRefs s !! j) as [leafj|] eqn:Hj; fields.
      * split; [exact Hb'|]. split.
        -- exists leaf. now rewrite list_lookup_insert_ne.
        -- exists sp. rewrite apiStart_lookup, Hsp. unfold onlyLeaf.
           replace (Nat.eqb i j) with false
             by (symmetry; apply Nat.eqb_neq; congruence).
           repeat split; auto.
      * split; [exact Hb'|]. split; eauto.
Qed.

Lemma regrowing_set_timers i l n s :
  regrowing i s -> regrowing i (set_timers l n s).
Proof. intros H; exact H. Qed.

(** Running the due closures, one of which prunes leaf [i]. *)
Lemma due_prune_regrowing i (due : list Timer) (s : State) :
  leafExists i s ->
  (exists t, In t due /\ callback t = PruneFired i) ->
  regrowing i (fold_left (fun st t => runCallback (callback t) st) due s).
Proof.
  revert s. induction due as [|t due IH]; intros s He (t0 & Hin & Hcb).
  - destruct Hin.
  - simpl. destruct Hin as [->|Hin].
    + apply callbacks_preserve; [apply regrowing_callback|].
      rewrite Hcb. now apply pruneTimeout_regrowing.
    + apply IH; [now apply leafExists_callback | eauto].
Qed.

(** Timers are only added by closures. *)
Lemma timers_callback cb s t :
  In t (timers s) -> In t (timers (runCallback cb s)).
Proof.
  intros H. destruct cb as [| |j]; unfold_ops.
  - destruct (eqb _ _); fields; apply in_or_app; now left.
  - destruct (eqb _ _); fields; exact H.
  - fields. destruct (leafRefs s !! j); fields; exact H.
Qed.

Lemma timers_callbacks due s t :
  In t (timers s) ->
  In t (timers (fold_left (fun st t => runCallback (callback t) st) due s)).
Proof.
  apply (callbacks_preserve (fun st => In t (timers st))).
  intros cb st. apply timers_callback.
Qed.

Lemma prunePending_tick i r s :
  prunePending i (S (S r)) s -> prunePending i (S r) (tick_ms s).
Proof.
  intros (t & Hin & Hcb & Hr). exists (age t). repeat split.
  - unfold tick_ms. apply timers_callbacks. fields.
    apply filter_In. split; [now apply in_map|].
    unfold isDue, age. simpl. now rewrite Hr.
  - exact Hcb.
  - simpl. now rewrite Hr.
Qed.

Lemma prune_fires i s :
  leafExists i s -> prunePending i 1 s -> regrowing i (tick_ms s).
Proof.
  intros He (t & Hin & Hcb & Hr). unfold tick_ms.
  apply due_prune_regrowing; [exact He|].
  exists (age t). split; [|exact Hcb].
  apply filter_In. split; [now apply in_map|].
  unfold isDue, age. simpl. now rewrite Hr.
Qed.

Lemma elapse_S d s : elapse (S d) s = elapse d (tick_ms s).
Proof. unfold elapse. apply Nat.iter_succ_r. Qed.

Lemma prune_completes i r s :
  leafExists i s -> prunePending i (S r) s -> regrowing i (elapse (S r) s).
Proof.
  revert s. induction r as [|r IH]; intros s He Hp.
  - now apply prune_fires.
  - rewrite elapse_S. apply IH.
    + apply tick_ms_preserves;
        auto using leafExists_callback, leafExists_set_timers.
    + now apply prunePending_tick.
Qed.

(** C5, as stated, fails: right after the pick of an unhealthy leaf the leaf
    is still in the unhealthy set. *)
Lemma prune_not_immediately_healthy :
  ~ (forall (s : State) (i : nat),
       Reachable s -> i ∈ badLeaves s ->
       i ∉ badLeaves (step s (Click (Some i)))).
Proof.
  intros H.
  assert (Hb : 0%nat ∈ badLeaves (step init (BadLeafTick 0 0)))
    by (apply (bool_decide_eq_true_1 _); vm_compute; reflexivity).
  apply (H (step init (BadLeafTick 0 0)) 0%nat); [apply reach_step, reach_init | exact Hb |].
  apply (bool_decide_eq_true_1 _). vm_compute. reflexivity.
Qed.

(** C5, amended. A pick of an unhealthy leaf [i] sends the goal of its
    spring to 0 with the default spring configuration and queues the prune
    closure 600ms ahead, while [i] stays in the unhealthy set; when the 600ms
    have passed, [i] is out of the unhealthy set, its mesh has the healthy
    material, and its spring has the goal 1 with the fixed duration of
    22000ms. *)
Theorem prune_round_trip (s : State) (i : nat) :
  Reachable s -> i ∈ badLeaves s ->
  let s1 := step s (Click (Some i)) in
  i ∈ badLeaves s1 /\
  (exists sp, leafSprings s !! i = Some sp /\
              leafSprings s1 !! i = Some (mkSpring (scale sp) 0 (Physics 180 18))) /\
  prunePending i 600 s1 /\
  regrowing i (step s1 (Elapse 600)).
Proof.
  intros Hr Hb s1.
  destruct (reachable_ShapeInv s Hr) as (Hl & Hs & Hlt).
  pose proof (Hlt i Hb) as Hi.
  assert (E : s1 = fst (setTimeout (PruneFired i) 600
                (set_leafSprings
                   (apiStart (onlyLeaf i 0 defaultSpring) (leafSprings s)) s))).
  { unfold s1. simpl. unfold onClick. now rewrite bool_decide_eq_true_2. }
  assert (Hp : prunePending i 600 s1).
  { rewrite E. exists (mkTimer (nextTimerId s) 600 (PruneFired i)).
    unfold setTimeout. fields. split; [|split; reflexivity].
    apply in_or_app. right. now left. }
  assert (He : leafExists i s1).
  { rewrite E. unfold leafExists, setTimeout. fields.
    rewrite apiStart_length. lia. }
  split; [|split; [|split]].
  - rewrite E. exact Hb.
  - destruct (lookup_lt_is_Some_2 (leafSprings s) i) as [sp Hsp]; [lia|].
    exists sp. split; [exact Hsp|]. rewrite E. unfold setTimeout. fields.
    rewrite apiStart_lookup, Hsp. unfold onlyLeaf. now rewrite Nat.eqb_refl.
  - exact Hp.
  - change (step s1 (Elapse 600)) with (elapse 600 s1).
    change 600%nat with (S 599) in Hp |- *.
    now apply prune_completes.
Qed.

Lemma prune_round_trip_witness :
  let s := step init (BadLeafTick 0 0) in
  Reachable s /\ 0%nat ∈ badLeaves s /\
  regrowing 0 (step (step s (Click (Some 0%nat))) (Elapse 600)).
Proof.
  intros s.
  assert (Hr : Reachable s) by (apply reach_step, reach_init).
  assert (Hb : 0%nat ∈ badLeaves s)
    by (apply (bool_decide_eq_true_1 _); vm_compute; reflexivity).
  split; [exact Hr|]. split; [exact Hb|].
  exact (proj2 (proj2 (proj2 (prune_round_trip s 0 Hr Hb)))).
Defined.

(** ** The watering gesture *)

Lemma filter_comm {A : Type} (f g : A -> bool) (l : list A) :
  List.filter f (List.filter g l) = List.filter g (List.filter f l).
Proof.
  induction l as [|x l IH]; simpl; [reflexivity|].
  destruct (f x) eqn:Hf, (g x) eqn:Hg; simpl; rewrite ?Hf, ?Hg, IH; reflexivity.
Qed.

Lemma filter_map_age (f : Timer -> bool) (l : list Timer) :
  (forall t, f (age t) = f t) ->
  List.filter f (map age l) = map age (List.filter f l).
Proof.
  intros Hf. induction l as [|t l IH]; simpl; [reflexivity|].
  rewrite Hf. destruct (f t); simpl; now rewrite IH.
Qed.

Lemma cleared_gesture r l :
  List.filter isGesture (cleared r l) = cleared r (List.filter isGesture l).
Proof. destruct r; simpl; [apply filter_comm | reflexivity]. Qed.

Lemma view_run cb s : view (runCallback cb s) = vrun (view s) cb.
Proof.
  destruct cb as [| |j]; unfold view, vrun; unfold_ops.
  - destruct (watering s) eqn:Hw; fields; rewrite ?Hw;
      now rewrite List.filter_app.
  - destruct (watering s) eqn:Hw; fields; rewrite ?Hw; reflexivity.
  - fields. destruct (leafRefs s !! j); reflexivity.
Qed.

Lemma view_fold due s :
  view (fold_left (fun st t => runCallback (callback t) st) due s) =
  fold_left (fun w t => vrun w (callback t)) (List.filter isGesture due) (view s).
Proof.
  revert s. induction due as [|t due IH]; intros s; simpl; [reflexivity|].
  rewrite IH, view_run. destruct t as [k r cb].
  unfold isGesture at 2. cbn [callback]. destruct cb; reflexivity.
Qed.

Lemma view_tick s : view (tick_ms s) = vtick (view s).
Proof.
  unfold tick_ms, vtick. rewrite view_fold. f_equal.
  - rewrite filter_comm. now rewrite (filter_map_age isGesture).
  - unfold view. fields. f_equal.
    rewrite filter_comm. now rewrite (filter_map_age isGesture).
Qed.

Lemma view_elapse d s : view (elapse d s) = Nat.iter d vtick (view s).
Proof.
  unfold elapse. induction d as [|d IH]; simpl; [reflexivity|].
  now rewrite view_tick, IH.
Qed.

Lemma view_down s : view (handlePlantAreaPointerDown s) = vdown (view s).
Proof.
  unfold view, vdown. unfold_ops. fields.
  now rewrite List.filter_app, cleared_gesture.
Qed.

Lemma view_up s : view (handlePlantAreaPointerUp s) = vup (view s).
Proof.
  unfold view, vup. unfold_ops. fields.
  destruct (watering s) eqn:Hw; fields; rewrite ?Hw;
    now rewrite !cleared_gesture.
Qed.

Lemma view_leave s : view (handlePlantAreaPointerLeave s) = vup (view s).
Proof. apply view_up. Qed.

(** A single queued gesture timer counts down, then fires. *)
Lemma countdown w h x n k cb (D d : nat) :
  (d < D)%nat ->
  Nat.iter d vtick (mkGesture w h x n [mkTimer k D cb]) =
  mkGesture w h x n [mkTimer k (D - d) cb].
Proof.
  induction d as [|d IH]; intros Hd.
  - now rewrite Nat.sub_0_r.
  - simpl. rewrite IH by lia.
    replace (D - d)%nat with (S (S (D - d - 2))) by lia.
    replace (D - S d)%nat with (S (D - d - 2)) by lia. reflexivity.
Qed.

Lemma countdown_fire w h x n k cb (D : nat) :
  Nat.iter (S D) vtick (mkGesture w h x n [mkTimer k (S D) cb]) =
  vrun (mkGesture w h x n []) cb.
Proof.
  simpl. rewrite countdown by lia.
  replace (S D - D)%nat with 1%nat by lia. reflexivity.
Qed.

Lemma no_timer_rest w h x n (d : nat) :
  Nat.iter d vtick (mkGesture w h x n []) = mkGesture w h x n [].
Proof. induction d as [|d IH]; simpl; [reflexivity | now rewrite IH]. Qed.

Lemma view_down_idle s :
  idle s ->
  view (handlePlantAreaPointerDown s) =
  mkGesture false (Some (nextTimerId s)) (wateringTimeout s)
            (S (nextTimerId s)) [mkTimer (nextTimerId s) 1000 HoldFired].
Proof.
  intros [Hw Ht]. rewrite view_down. unfold vdown, view. cbn [gWatering gHold gSession gNext gTimers].
  rewrite Hw, Ht. now destruct (wateringTimeout s).
Qed.

Lemma held_view s d :
  idle s ->
  view (elapse d (handlePlantAreaPointerDown s)) =
  if (d <? 1000)%nat then
    mkGesture false (Some (nextTimerId s)) (wateringTimeout s)
              (S (nextTimerId s)) [mkTimer (nextTimerId s) (1000 - d) HoldFired]
  else if (d <? 2200)%nat then
    mkGesture true (Some (nextTimerId s)) (Some (S (nextTimerId s)))
              (S (S (nextTimerId s)))
              [mkTimer (S (nextTimerId s)) (2200 - d) SessionFired]
  else
    mkGesture false (Some (nextTimerId s)) (Some (S (nextTimerId s)))
              (S (S (nextTimerId s))) [].
Proof.
  intros Hi. rewrite view_elapse, (view_down_idle s Hi).
  destruct (d <? 1000)%nat eqn:H1.
  - apply Nat.ltb_lt in H1. now apply countdown.
  - apply Nat.ltb_ge in H1.
    destruct (Nat.le_exists_sub 1000 d H1) as (e & -> & _).
    rewrite Nat.iter_add.
    change 1000%nat with (S 999). rewrite countdown_fire.
    cbn [vrun gHold gNext gTimers app].
    destruct (e + S 999 <? 2200)%nat eqn:H2.
    + apply Nat.ltb_lt in H2. rewrite countdown by lia.
      replace (2200 - (e + S 999))%nat with (1200 - e)%nat by lia.
      reflexivity.
    + apply Nat.ltb_ge in H2.
      destruct (Nat.le_exists_sub 1200 e) as (e' & -> & _); [lia|].
      rewrite Nat.iter_add.
      change 1200%nat with (S 1199). rewrite countdown_fire.
      cbn [vrun gHold gSession gNext gTimers].
      apply no_timer_rest.
Qed.

Lemma watering_view s : watering s = gWatering (view s).
Proof. reflexivity. Qed.

(** C9. From a state with no hold or session pending: after a pointer-down,
    [watering] is false during the first 999ms; a release at 900ms cancels
    the hold timer and [watering] stays false for ever after; without a
    release [watering] is true from 1000ms to 2199ms after the pointer-down
    (in particular at 1100ms) and false again from 2200ms on. *)
Theorem hold_gesture_timing (s : State) :
  idle s ->
  let down := step s PointerDown in
  (forall d, (d < 1000)%nat -> watering (step down (Elapse d)) = false) /\
  (forall d, watering (step (step (step down (Elapse 900)) PointerUp)
                            (Elapse d)) = false) /\
  (forall d, (1000 <= d < 2200)%nat -> watering (step down (Elapse d)) = true) /\
  (forall d, (2200 <= d)%nat -> watering (step down (Elapse d)) = false).
Proof.
  intros Hi down. unfold down. cbn [step].
  split; [|split; [|split]].
  - intros d Hd. rewrite watering_view, (held_view s d Hi).
    apply Nat.ltb_lt in Hd. now rewrite Hd.
  - intros d. rewrite watering_view, view_elapse, view_up, (held_view s 900 Hi).
    replace (900 <? 1000)%nat with true by (symmetry; apply Nat.ltb_lt; lia).
    unfold vup. cbn [gWatering gHold gSession gNext gTimers cleared List.filter tid].
    rewrite Nat.eqb_refl. cbn [negb].
    replace (cleared (wateringTimeout s) []) with (@nil Timer)
      by now destruct (wateringTimeout s).
    now rewrite no_timer_rest.
  - intros d [Hd1 Hd2]. rewrite watering_view, (held_view s d Hi).
    replace (d <? 1000)%nat with false by (symmetry; apply Nat.ltb_ge; lia).
    replace (d <? 2200)%nat with true by (symmetry; apply Nat.ltb_lt; lia).
    reflexivity.
  - intros d Hd. rewrite watering_view, (held_view s d Hi).
    replace (d <? 1000)%nat with false by (symmetry; apply Nat.ltb_ge; lia).
    replace (d <? 2200)%nat with false by (symmetry; apply Nat.ltb_ge; lia).
    reflexivity.
Qed.

Lemma hold_gesture_timing_witness :
  idle init /\
  watering (step (step init PointerDown) (Elapse 999)) = false /\
  watering (step (step (step (step init PointerDown) (Elapse 900)) PointerUp)
                 (Elapse 5000)) = false /\
  watering (step (step init PointerDown) (Elapse 1100)) = true /\
  watering (step (step init PointerDown) (Elapse 2200)) = false.
Proof.
  assert (Hi : idle init) by (split; reflexivity).
  destruct (hold_gesture_timing init Hi) as (H1 & H2 & H3 & H4).
  split; [exact Hi|].
  split; [apply H1; lia|]. split; [apply H2|].
  split; [apply H3; lia | apply H4; lia].
Defined.

(** ** Decay without watering input *)

Lemma idle_view s :
  idle s <-> gWatering (view s) = false /\ gTimers (view s) = [].
Proof. reflexivity. Qed.

Lemma idle_step_other s e :
  match e with
  | MoistureTick | BadLeafTick _ _ | Click _ | SpringFrame _ | AnimationFrame => True
  | _ => False
  end ->
  idle s -> idle (step s e).
Proof.
  destruct e; intros H; try (exfalso; exact H); clear H; cbn [step];
    intros Hi.
  - unfold moistureTick. now destruct (moistureInterval s) as [[]|].
  - unfold badLeafTick.
    destruct (Qltb _ _); [|exact Hi].
    destruct (0 <? _)%nat; [|exact Hi].
    destruct (pickIndex _ _) as [k|]; [|exact Hi].
    now destruct (leafRefs s !! k).
  - unfold onClick. destruct hit as [i|]; [|exact Hi].
    destruct (bool_decide _); [|exact Hi].
    destruct Hi as [Hw Ht]. unfold idle, setTimeout. fields.
    split; [exact Hw|]. rewrite List.filter_app, Ht. reflexivity.
  - exact Hi.
  - exact Hi.
Qed.

Lemma idle_step s e : idle s -> e <> PointerDown -> idle (step s e).
Proof.
  intros Hi He.
  destruct e; try congruence;
    try (apply idle_step_other; [exact I | exact Hi]);
    apply idle_view; apply idle_view in Hi; destruct Hi as [Hw Ht];
    cbn [step].
  - rewrite view_up. unfold vup, view.
    cbn [gWatering gTimers gHold gSession] in *. rewrite Ht.
    split; [reflexivity|].
    now destruct (holdTimeout s), (wateringTimeout s).
  - rewrite view_leave. unfold vup, view.
    cbn [gWatering gTimers gHold gSession] in *. rewrite Ht.
    split; [reflexivity|].
    now destruct (holdTimeout s), (wateringTimeout s).
  - rewrite view_elapse. unfold view in *.
    cbn [gWatering gTimers] in *. rewrite Hw, Ht. now rewrite no_timer_rest.
Qed.

Lemma waterLevel_callback cb s : waterLevel (runCallback cb s) = waterLevel s.
Proof.
  destruct cb as [| |j]; unfold_ops.
  - now destruct (eqb _ _).
  - now destruct (eqb _ _).
  - fields. now destruct (leafRefs s !! j).
Qed.

Lemma waterLevel_step_other s e :
  e <> MoistureTick -> waterLevel (step s e) = waterLevel s.
Proof.
  intros He. destruct e; try congruence; cbn [step].
  - unfold_ops. reflexivity.
  - unfold_ops. fields. destruct (watering s); [destruct (eqb _ _)|]; reflexivity.
  - unfold_ops. fields. destruct (watering s); [destruct (eqb _ _)|]; reflexivity.
  - apply (elapse_preserves (fun st => waterLevel st = waterLevel s)); auto.
    intros cb st H. now rewrite waterLevel_callback.
  - unfold badLeafTick.
    destruct (Qltb _ _); [|reflexivity].
    destruct (0 <? _)%nat; [|reflexivity].
    destruct (pickIndex _ _) as [k|]; [|reflexivity].
    now destruct (leafRefs s !! k).
  - unfold onClick. destruct hit as [i|]; [|reflexivity].
    now destruct (bool_decide _).
  - reflexivity.
  - reflexivity.
Qed.

Lemma dry_tick s :
  WaterInv s -> idle s ->
  waterLevel (step s MoistureTick) = decayRule (waterLevel s).
Proof.
  intros (_ & _ & Hi) [Hw _]. cbn [step]. unfold moistureTick.
  now rewrite Hi, Hw.
Qed.

Lemma dry_run_idle tr s : idle s -> noPointerDown tr -> idle (run tr s).
Proof.
  revert s. induction tr as [|e tr IH]; intros s Hi Hn; [exact Hi|].
  apply Forall_cons in Hn. destruct Hn as [He Hn].
  change (run (e :: tr) s) with (run tr (step s e)).
  apply IH; [now apply idle_step | exact Hn].
Qed.

(** C10, amended. The water level starts at 1 (state cell and ref).  In a
    run without pointer-down, whatever else happens, a moisture tick
    strictly lowers the level while it is positive and leaves it at 0 once
    it is 0.  With ticks only, each of the first 500 lowers the level and
    from the 500th on it is 0. *)
Theorem initial_level_decay (tr : list Event) (n : nat) :
  waterLevel init = 1%Q /\ waterLevelRef init = 1%Q /\
  (noPointerDown tr ->
   let s := run tr init in
   ((0 < waterLevel s)%Q ->
    (waterLevel (step s MoistureTick) < waterLevel s)%Q) /\
   ((waterLevel s == 0)%Q -> (waterLevel (step s MoistureTick) == 0)%Q)) /\
  ((n < 500)%nat -> (waterLevel (dryTicks (S n)) < waterLevel (dryTicks n))%Q) /\
  ((500 <= n)%nat -> (waterLevel (dryTicks n) == 0)%Q).
Proof.
  split; [reflexivity|]. split; [reflexivity|].
  split; [|split; [apply dryTicks_decreasing | apply dryTicks_empty]].
  intros Hn s.
  assert (Hw : WaterInv s) by apply reachable_WaterInv, reachable_run.
  assert (Hi : idle s) by (apply dry_run_idle; [split; reflexivity | exact Hn]).
  rewrite (dry_tick s Hw Hi). unfold decayRule.
  destruct (Q.max_spec 0 (waterLevel s - 0.002)) as [[? ->] | [? ->]];
    split; intros; lra.
Qed.

Lemma initial_level_decay_witness :
  let tr := [MoistureTick; BadLeafTick 0 0; Click (Some 0%nat); Elapse 700;
             MoistureTick; AnimationFrame] in
  noPointerDown tr /\ (0 < waterLevel (run tr init))%Q /\
  (waterLevel (step (run tr init) MoistureTick) < waterLevel (run tr init))%Q.
Proof.
  intros tr.
  assert (Hn : noPointerDown tr) by (repeat constructor; discriminate).
  assert (Hp : (0 < waterLevel (run tr init))%Q) by (vm_compute; reflexivity).
  split; [exact Hn|]. split; [exact Hp|].
  exact (proj1 (proj1 (proj2 (proj2 (initial_level_decay tr 0))) Hn) Hp).
Defined.

(** ** The formulas in binary64

    The values and the orderings the statements above name are the same
    when the source's formulas are evaluated on doubles. *)

Example chance64_endpoints :
  getBadLeafChance64 0 = 0.25%float /\ getBadLeafChance64 1 = 0.01%float.
Proof. split; reflexivity. Qed.

Example decay64_reaches_empty :
  Nat.iter 1 decayRule64 1%float = 0.998%float /\
  Nat.iter 500 decayRule64 1%float = 0%float /\
  Nat.iter 600 decayRule64 1%float = Nat.iter 601 decayRule64 1%float.
Proof. repeat split; vm_compute; reflexivity. Qed.

Example charge64_reaches_full :
  Nat.iter 50 chargeRule64 0%float = 1%float /\
  Nat.iter 51 chargeRule64 0%float = 1%float.
Proof. split; vm_compute; reflexivity. Qed.

Example decay64_first_500_strict :
  forallb (fun n => (Nat.iter (S n) decayRule64 1 <? Nat.iter n decayRule64 1)%float)
          (seq 0 500) = true.
Proof. vm_compute; reflexivity. Qed.


(** * Further properties of the code *)

(** ** Clock *)

Lemma dayProgress_rem (elapsed : Z) :
  (dayProgress elapsed * 60000 == inject_Z (Z.rem elapsed 60000))%Q.
Proof.
  unfold dayProgress. change dayDuration with 60000%Z.
  change (inject_Z 60000) with 60000%Q. field.
Qed.

(** X1. For a non-negative elapsed time the day progress is in [[0,1)], it
    is 0 exactly at the multiples of 60000ms, and it is the same 60000ms
    later. *)
Theorem day_progress_cycle (elapsed : Z) :
  (0 <= elapsed)%Z ->
  (0 <= dayProgress elapsed /\ dayProgress elapsed < 1)%Q /\
  ((dayProgress elapsed == 0)%Q <-> exists k, elapsed = (60000 * k)%Z) /\
  (dayProgress (elapsed + 60000) == dayProgress elapsed)%Q.
Proof.
  intros He.
  pose proof (dayProgress_rem elapsed) as E.
  pose proof (Z.rem_bound_pos elapsed 60000 He ltac:(lia)) as [B0 B1].
  rewrite Zle_Qle in B0. rewrite Zlt_Qlt in B1.
  change (inject_Z 0) with 0%Q in B0. change (inject_Z 60000) with 60000%Q in B1.
  split; [split; lra|]. split.
  - split.
    + intros H0. exists (elapsed / 60000)%Z.
      assert (R : Z.rem elapsed 60000 = 0%Z).
      { apply inject_Z_injective. rewrite <- E, H0. reflexivity. }
      rewrite Z.rem_mod_nonneg in R by lia.
      pose proof (Z.div_mod elapsed 60000 ltac:(lia)). lia.
    + intros [k ->].
      assert (R : Z.rem (60000 * k) 60000 = 0%Z).
      { rewrite Z.rem_mod_nonneg by lia. rewrite Z.mul_comm. apply Z.mod_mul. lia. }
      rewrite R in E. change (inject_Z 0) with 0%Q in E. lra.
  - pose proof (dayProgress_rem (elapsed + 60000)) as E'.
    assert (R : Z.rem (elapsed + 60000) 60000 = Z.rem elapsed 60000).
    { rewrite !Z.rem_mod_nonneg by lia.
      replace (elapsed + 60000)%Z with (elapsed + 1 * 60000)%Z by lia.
      apply Z.mod_add. lia. }
    rewrite R in E'. lra.
Qed.

(** X2. Inside one 60000ms window (same quotient by 60000) a later time has
    a strictly larger day progress, and the progress drops at the boundary:
    it is 59999/60000 one millisecond before a multiple of 60000 and 0 at
    it. *)
Theorem day_progress_window (e1 e2 : Z) :
  (0 <= e1 < e2)%Z -> (e1 / 60000 = e2 / 60000)%Z ->
  (dayProgress e1 < dayProgress e2)%Q /\
  (forall k, (0 < k)%Z ->
     (dayProgress (60000 * k - 1) == 59999 # 60000)%Q /\
     (dayProgress (60000 * k) == 0)%Q).
Proof.
  intros He Hq. split.
  - pose proof (dayProgress_rem e1) as E1.
    pose proof (dayProgress_rem e2) as E2.
    rewrite Z.rem_mod_nonneg in E1, E2 by lia.
    assert (L : (e1 mod 60000 < e2 mod 60000)%Z).
    { pose proof (Z.div_mod e1 60000 ltac:(lia)).
      pose proof (Z.div_mod e2 60000 ltac:(lia)). lia. }
    rewrite Zlt_Qlt in L. lra.
  - intros k Hk.
    pose proof (dayProgress_rem (60000 * k - 1)) as E1.
    pose proof (dayProgress_rem (60000 * k)) as E2.
    rewrite Z.rem_mod_nonneg in E1, E2 by lia.
    replace ((60000 * k - 1) mod 60000)%Z with 59999%Z in E1.
    2:{ apply (Z.mod_unique _ _ (k - 1)); lia. }
    replace ((60000 * k) mod 60000)%Z with 0%Z in E2.
    2:{ apply (Z.mod_unique _ _ k); lia. }
    change (inject_Z 59999) with 59999%Q in E1.
    change (inject_Z 0) with 0%Q in E2.
    split; lra.
Qed.

Lemma day_progress_window_witness :
  (0 <= 15000 < 45000)%Z /\ (15000 / 60000 = 45000 / 60000)%Z /\
  (dayProgress 15000 < dayProgress 45000)%Q.
Proof.
  assert (H1 : (0 <= 15000 < 45000)%Z) by lia.
  assert (H2 : (15000 / 60000 = 45000 / 60000)%Z) by reflexivity.
  split; [exact H1|]. split; [exact H2|].
  exact (proj1 (day_progress_window 15000 45000 H1 H2)).
Defined.

Lemma day_progress_cycle_witness :
  (0 <= 75000)%Z /\ (0 <= dayProgress 75000 /\ dayProgress 75000 < 1)%Q.
Proof.
  assert (H : (0 <= 75000)%Z) by lia.
  split; [exact H | exact (proj1 (day_progress_cycle 75000 H))].
Defined.

(** X3. When the clock reads earlier than the start time ([elapsed]
    negative) the day progress is not in [[0,1)]: it lies in [(-1,0]],
    because [%] keeps the sign of [elapsed]. *)
Theorem day_progress_clock_set_back (elapsed : Z) :
  (elapsed < 0)%Z ->
  (-1 < dayProgress elapsed /\ dayProgress elapsed <= 0)%Q /\
  (Z.rem elapsed 60000 <> 0%Z -> (dayProgress elapsed < 0)%Q).
Proof.
  intros He. pose proof (dayProgress_rem elapsed) as E.
  pose proof (Z.rem_bound_pos_neg elapsed 60000 ltac:(lia) ltac:(lia)) as [B0 B1].
  assert (B0' : (-60000 < Z.rem elapsed 60000)%Z) by lia.
  rewrite Zlt_Qlt in B0'. rewrite Zle_Qle in B1.
  change (inject_Z (-60000)) with (-60000)%Q in B0'.
  change (inject_Z 0) with 0%Q in B1.
  split; [split; lra|].
  intros Hn.
  assert (L : (Z.rem elapsed 60000 < 0)%Z)
    by (pose proof (Z.rem_nonpos elapsed 60000 ltac:(lia) ltac:(lia)); lia).
  rewrite Zlt_Qlt in L. change (inject_Z 0) with 0%Q in L. lra.
Qed.

Lemma day_progress_clock_set_back_witness :
  (-15000 < 0)%Z /\ (dayProgress (-15000) < 0)%Q.
Proof.
  assert (H : (-15000 < 0)%Z) by lia.
  split; [exact H|].
  apply (proj2 (day_progress_clock_set_back (-15000) H)). discriminate.
Defined.

(** ** GrowthHistory *)

Lemma sliceLast_length {A : Type} (k : nat) (l : list A) :
  length (sliceLast k l) = Nat.min k (length l).
Proof. unfold sliceLast. rewrite length_skipn. lia. Qed.

Lemma sliceLast_snoc {A : Type} (k : nat) (l : list A) (x : A) :
  sliceLast (S k) (l ++ [x]) = sliceLast k l ++ [x].
Proof.
  unfold sliceLast. rewrite length_app. cbn [length].
  replace (length l + 1 - S k)%nat with (length l - k)%nat by lia.
  rewrite skipn_app.
  replace (length l - k - length l)%nat with 0%nat by lia. reflexivity.
Qed.

Lemma sliceLast_twice {A : Type} (k m : nat) (l : list A) :
  (k <= m)%nat -> sliceLast k (sliceLast m l) = sliceLast k l.
Proof.
  intros Hk. unfold sliceLast. rewrite length_skipn, skipn_skipn.
  f_equal. lia.
Qed.

Lemma historyRun_snoc (samples : list Q) (g : Q) :
  historyRun (samples ++ [g]) = historyTick (historyRun samples) g.
Proof. unfold historyRun. now rewrite fold_left_app. Qed.

Lemma historyRun_sliceLast (samples : list Q) :
  historyRun samples = sliceLast 30 samples.
Proof.
  induction samples as [|g samples IH] using rev_ind; [reflexivity|].
  rewrite historyRun_snoc, IH. unfold historyTick.
  rewrite sliceLast_twice by lia. now rewrite sliceLast_snoc.
Qed.

(** X4. After any number of one-second samples the growth history is
    exactly the last 30 samples in chronological order (all of them while
    there are fewer): its length is [min(30, n)] and never exceeds 30, and
    after 40 samples it is the samples 11 to 40. *)
Theorem history_window (samples : list Q) :
  historyRun samples = sliceLast 30 samples /\
  length (historyRun samples) = Nat.min 30 (length samples) /\
  (length (historyRun samples) <= 30)%nat /\
  (length samples = 40%nat -> historyRun samples = skipn 10 samples).
Proof.
  pose proof (historyRun_sliceLast samples) as W.
  split; [exact W|]. rewrite W, sliceLast_length.
  split; [reflexivity|]. split; [lia|].
  intros H40. unfold sliceLast. now rewrite H40.
Qed.

Lemma history_window_witness :
  let samples := map (fun n => inject_Z (Z.of_nat n) / 100)%Q (seq 0 40) in
  length samples = 40%nat /\ historyRun samples = skipn 10 samples.
Proof.
  intros samples.
  assert (H : length samples = 40%nat) by reflexivity.
  split; [exact H|].
  exact (proj2 (proj2 (proj2 (history_window samples))) H).
Defined.

(** ** Indicators *)

Lemma mathRound_nearest (x : Q) :
  (inject_Z (mathRound x) - (1 # 2) <= x /\
   x < inject_Z (mathRound x) + (1 # 2))%Q.
Proof.
  unfold mathRound.
  pose proof (Qfloor_le (x + (1 # 2))) as H1.
  pose proof (Qlt_floor (x + (1 # 2))) as H2.
  rewrite inject_Z_plus in H2. change (inject_Z 1) with 1%Q in H2.
  split; lra.
Qed.

Lemma percentLabel_unit (level : Q) :
  inUnit level -> (0 <= percentLabel level <= 100)%Z.
Proof.
  intros [H0 H1]. unfold percentLabel, mathRound. split.
  - apply (Z.le_trans _ (Qfloor (1 # 2))); [discriminate|].
    apply Qfloor_resp_le. lra.
  - apply (Z.le_trans _ (Qfloor (201 # 2))); [|discriminate].
    apply Qfloor_resp_le. lra.
Qed.

(** X5. The percentage shown by the water bar is an integer within half a
    unit of [100 * waterLevel], and in every reachable state it is between 0
    and 100. *)
Theorem water_bar_percent (s : State) :
  Reachable s ->
  (0 <= percentLabel (waterLevel s) <= 100)%Z /\
  (inject_Z (percentLabel (waterLevel s)) - (1 # 2) <= waterLevel s * 100 /\
   waterLevel s * 100 < inject_Z (percentLabel (waterLevel s)) + (1 # 2))%Q.
Proof.
  intros Hr. destruct (reachable_WaterInv s Hr) as (_ & Hu & _).
  split; [now apply percentLabel_unit | apply mathRound_nearest].
Qed.

Lemma water_bar_percent_witness :
  let s := run [MoistureTick; MoistureTick; MoistureTick] init in
  Reachable s /\ (0 <= percentLabel (waterLevel s) <= 100)%Z /\
  percentLabel (waterLevel s) = 99%Z.
Proof.
  intros s. assert (Hr : Reachable s) by apply reachable_run.
  split; [exact Hr|].
  split; [exact (proj1 (water_bar_percent s Hr)) | vm_compute; reflexivity].
Defined.

(** X6. The day bar is never narrower than 2 percent: for a non-negative
    elapsed time its width is in [[2,100)], it is the floor value 2 during the
    first 1200ms of each day and [100 * dayProgress] afterwards. *)
Theorem day_bar_width (elapsed : Z) :
  (0 <= elapsed)%Z ->
  (2 <= dayBarWidth (dayProgress elapsed) /\
   dayBarWidth (dayProgress elapsed) < 100)%Q /\
  ((Z.rem elapsed 60000 <= 1200)%Z ->
   (dayBarWidth (dayProgress elapsed) == 2)%Q) /\
  ((1200 <= Z.rem elapsed 60000)%Z ->
   (dayBarWidth (dayProgress elapsed) == dayProgress elapsed * 100)%Q).
Proof.
  intros He. pose proof (dayProgress_rem elapsed) as E.
  pose proof (Z.rem_bound_pos elapsed 60000 He ltac:(lia)) as [B0 B1].
  rewrite Zle_Qle in B0. rewrite Zlt_Qlt in B1.
  change (inject_Z 0) with 0%Q in B0. change (inject_Z 60000) with 60000%Q in B1.
  unfold dayBarWidth.
  destruct (Q.max_spec 2 (dayProgress elapsed * 100)) as [[L ->] | [L ->]].
  - split; [lra|]. split; [|reflexivity].
    intros H. rewrite Zle_Qle in H. change (inject_Z 1200) with 1200%Q in H. lra.
  - split; [lra|]. split; [reflexivity|].
    intros H. rewrite Zle_Qle in H. change (inject_Z 1200) with 1200%Q in H. lra.
Qed.

Lemma day_bar_width_witness :
  (0 <= 60600)%Z /\ (dayBarWidth (dayProgress 60600) == 2)%Q.
Proof.
  assert (H : (0 <= 60600)%Z) by lia.
  split; [exact H|].
  apply (proj1 (proj2 (day_bar_width 60600 H))). vm_compute. discriminate.
Defined.

Lemma last_imap_snoc {A B : Type} (f : nat -> A -> B) (l : list A) (x : A) (d : B) :
  List.last (imap f (l ++ [x])) d = f (length l) x.
Proof.
  rewrite imap_app. cbn. rewrite Nat.add_0_r. apply List.last_last.
Qed.

Lemma chartLabels_lookup (h : list Q) (i : nat) (z : Z) :
  chartLabels h !! i = Some z ->
  (i < length h)%nat /\ z = (Z.of_nat i - Z.of_nat (length h) + 1)%Z.
Proof.
  unfold chartLabels. rewrite list_lookup_imap.
  destruct (h !! i) as [v|] eqn:Hi; [|discriminate].
  intros [= <-]. split; [|reflexivity]. eapply lookup_lt_Some; eauto.
Qed.

(** X7. The chart of a growth history made of samples in [[0,1]]: at most
    30 points, every point an integer percentage between 0 and 100, as many
    labels as points, every label between -29 and 0, and the label of the
    most recent point is 0. *)
Theorem chart_of_history (samples : list Q) :
  Forall inUnit samples ->
  let h := historyRun samples in
  (length (chartData h) <= 30)%nat /\
  length (chartLabels h) = length (chartData h) /\
  Forall (fun p => (0 <= p <= 100)%Z) (chartData h) /\
  (forall i z, chartLabels h !! i = Some z -> (-29 <= z <= 0)%Z) /\
  (samples <> [] -> List.last (chartLabels h) 1%Z = 0%Z).
Proof.
  intros Hs h.
  pose proof (historyRun_sliceLast samples) as W.
  assert (Hlen : length (historyRun samples) = Nat.min 30 (length samples))
    by (rewrite W; apply sliceLast_length).
  assert (Hle : (length (historyRun samples) <= 30)%nat) by lia.
  fold h in W, Hlen, Hle.
  assert (Hu : Forall inUnit h).
  { rewrite W. unfold sliceLast. now apply Forall_drop. }
  split; [unfold chartData; now rewrite length_map|].
  split; [unfold chartData, chartLabels; now rewrite length_imap, length_map|].
  split.
  - unfold chartData. apply Forall_map.
    eapply Forall_impl; [exact Hu|]. intros x Hx. now apply percentLabel_unit.
  - split.
    + intros i z Hz. apply chartLabels_lookup in Hz as [Hi ->]. lia.
    + intros Hne.
      assert (Hh : h <> []).
      { intros E. rewrite E in Hlen. destruct samples; [congruence|].
        cbn in Hlen. lia. }
      destruct (exists_last Hh) as (l' & x & E).
      unfold chartLabels. rewrite E, last_imap_snoc, length_app.
      cbn [length]. lia.
Qed.

Lemma chart_of_history_witness :
  let samples := map (fun n => inject_Z (Z.of_nat n) / 40)%Q (seq 0 40) in
  Forall inUnit samples /\
  List.last (chartLabels (historyRun samples)) 1%Z = 0%Z.
Proof.
  intros samples.
  assert (H : Forall inUnit samples).
  { apply Forall_forall. intros q Hq. apply list_elem_of_In in Hq.
    apply in_map_iff in Hq as (n & <- & Hn). apply in_seq in Hn.
    assert (Hn' : (inject_Z (Z.of_nat n) <= 40)%Q).
    { change 40%Q with (inject_Z 40). rewrite <- Zle_Qle. lia. }
    assert (Hn0 : (0 <= inject_Z (Z.of_nat n))%Q).
    { change 0%Q with (inject_Z 0). rewrite <- Zle_Qle. lia. }
    split; [apply Qle_shift_div_l | apply Qle_shift_div_r]; lra. }
  split; [exact H|].
  apply (proj2 (proj2 (proj2 (proj2 (chart_of_history samples H))))).
  discriminate.
Defined.

(** ** SlidingGraph *)

Lemma dragTo_range (c : Panel) (y : Q) (st : Panel) :
  (0 <= panelY st <= 200)%Q -> (0 <= panelY (dragTo c y st) <= 200)%Q.
Proof.
  intros H. unfold dragTo. destruct (dragStartY c) as [y0|]; [|exact H].
  destruct (open c); cbn [panelY].
  - destruct (Q.min_spec 0 (y - y0)) as [[? E1] | [? E1]];
      destruct (Q.max_spec (-200) (Qmin 0 (y - y0))) as [[? ->] | [? ->]];
      rewrite ?E1 in *; lra.
  - destruct (Q.min_spec 200 (y - y0)) as [[? E1] | [? E1]];
      destruct (Q.max_spec 0 (Qmin 200 (y - y0))) as [[? ->] | [? ->]];
      rewrite ?E1 in *; lra.
Qed.

Lemma panelStep_range (st : Panel) (e : PanelEvent) :
  (0 <= panelY st <= 200)%Q -> (0 <= panelY (panelStep st e) <= 200)%Q.
Proof.
  intros H. destruct e; cbn [panelStep].
  - exact H.
  - unfold onTouchStart. destruct touches as [|y [|y' ts]]; exact H.
  - now apply dragTo_range.
  - unfold onTouchMove. destruct touches as [|y [|y' ts]];
      try exact H. now apply dragTo_range.
  - unfold onMouseUp. destruct (dragStartY c); [|exact H].
    destruct (open c); cbn [panelY]; lra.
  - unfold onTouchEnd, onMouseUp. destruct (dragStartY c); [|exact H].
    destruct (open c); cbn [panelY]; lra.
Qed.

(** X8. Whatever mouse and touch events reach the panel, and whichever
    render their handler closures come from, the panel offset stays in
    [[0,200]] and the applied translation in [[-180,200]]: in [[-180,20]]
    while the panel is closed and in [[0,200]] while it is open. *)
Theorem panel_offset_bounded (events : list PanelEvent) :
  let st := fold_left panelStep events initialPanel in
  (0 <= panelY st <= 200)%Q /\
  (-180 <= translateY st <= 200)%Q /\
  (open st = false -> (translateY st <= 20)%Q) /\
  (open st = true -> (0 <= translateY st)%Q).
Proof.
  intros st.
  assert (H : (0 <= panelY st <= 200)%Q).
  { unfold st. generalize initialPanel,
      (conj (Qle_refl 0) (ltac:(lra) : (0 <= 200)%Q) : (0 <= panelY initialPanel <= 200)%Q).
    induction events as [|e events IH]; intros p Hp; cbn [fold_left]; [exact Hp|].
    apply IH. now apply panelStep_range. }
  split; [exact H|]. unfold translateY.
  destruct (open st); repeat split; intros; try discriminate; lra.
Qed.

Lemma panel_offset_bounded_witness :
  let st := fold_left panelStep
              [MouseDown 10; MouseMove (mkPanel false (Some 10%Q) 0) 400;
               MouseUp (mkPanel false (Some 10%Q) 200)] initialPanel in
  open st = true /\ (0 <= translateY st)%Q.
Proof.
  intros st. assert (Ho : open st = true) by reflexivity.
  split; [exact Ho|].
  exact (proj2 (proj2 (proj2 (panel_offset_bounded
    [MouseDown 10; MouseMove (mkPanel false (Some 10%Q) 0) 400;
     MouseUp (mkPanel false (Some 10%Q) 200)]))) Ho).
Defined.

(** X9. While a drag is tracked by a closure of the closed panel, the
    offset follows the pointer between 0 and 200 pixels below the start of
    the drag; a release with that closure's offset above 100 opens the
    panel, any other release leaves it closed, and every such release resets
    the offset to 0 and ends the drag. *)
Theorem panel_drag_release (c st : Panel) (y0 y : Q) :
  open c = false -> dragStartY c = Some y0 ->
  ((0 <= y - y0 <= 200)%Q -> (panelY (onMouseMove c y st) == y - y0)%Q) /\
  ((y - y0 < 0)%Q -> (panelY (onMouseMove c y st) == 0)%Q) /\
  ((200 < y - y0)%Q -> (panelY (onMouseMove c y st) == 200)%Q) /\
  panelY (onMouseUp c st) = 0%Q /\ dragStartY (onMouseUp c st) = None /\
  ((100 < panelY c)%Q -> open (onMouseUp c st) = true) /\
  ((panelY c <= 100)%Q -> open (onMouseUp c st) = open st).
Proof.
  intros Ho Hd. unfold onMouseMove, dragTo, onMouseUp. rewrite Ho, Hd.
  cbn [panelY dragStartY open].
  repeat split.
  - intros H.
    destruct (Q.min_spec 200 (y - y0)) as [[? E1] | [? E1]];
      destruct (Q.max_spec 0 (Qmin 200 (y - y0))) as [[? ->] | [? ->]];
      rewrite ?E1 in *; lra.
  - intros H.
    destruct (Q.min_spec 200 (y - y0)) as [[? E1] | [? E1]];
      destruct (Q.max_spec 0 (Qmin 200 (y - y0))) as [[? ->] | [? ->]];
      rewrite ?E1 in *; lra.
  - intros H.
    destruct (Q.min_spec 200 (y - y0)) as [[? E1] | [? E1]];
      destruct (Q.max_spec 0 (Qmin 200 (y - y0))) as [[? ->] | [? ->]];
      rewrite ?E1 in *; lra.
  - intros H. unfold Qltb.
    destruct (Qle_bool (panelY c) 100) eqn:E; [|reflexivity].
    apply Qle_bool_iff in E. lra.
  - intros H. unfold Qltb.
    apply Qle_bool_iff in H. now rewrite H.
Qed.

Lemma panel_drag_release_witness :
  let c := mkPanel false (Some 10%Q) 150 in
  open c = false /\ dragStartY c = Some 10%Q /\
  (panelY (onMouseMove c 130 initialPanel) == 120)%Q /\
  open (onMouseUp c initialPanel) = true.
Proof.
  intros c.
  destruct (panel_drag_release c initialPanel 10 130 eq_refl eq_refl)
    as (H1 & _ & _ & _ & _ & H6 & _).
  split; [reflexivity|]. split; [reflexivity|].
  split; [rewrite H1; [reflexivity | split; vm_compute; discriminate]|].
  apply H6. reflexivity.
Defined.

(** ** Cells that mirror each other *)

Lemma MirrorInv_set_timers l n s : MirrorInv s -> MirrorInv (set_timers l n s).
Proof. intros H; exact H. Qed.

Lemma MirrorInv_callback cb s : MirrorInv s -> MirrorInv (runCallback cb s).
Proof.
  intros [Hg Hw]. destruct cb as [| |j]; unfold MirrorInv; unfold_ops.
  - destruct (watering s) eqn:E; fields; rewrite ?E; auto.
  - destruct (watering s) eqn:E; fields; rewrite ?E; auto.
  - fields. destruct (leafRefs s !! j); fields; auto.
Qed.

Lemma MirrorInv_step s e : MirrorInv s -> MirrorInv (step s e).
Proof.
  intros [Hg Hw]. destruct e; cbn [step].
  - unfold MirrorInv. unfold_ops. fields. auto.
  - unfold MirrorInv. unfold_ops. fields.
    destruct (watering s) eqn:E; fields; rewrite ?E; auto.
  - unfold MirrorInv. unfold_ops. fields.
    destruct (watering s) eqn:E; fields; rewrite ?E; auto.
  - apply elapse_preserves;
      auto using MirrorInv_callback, MirrorInv_set_timers. now split.
  - unfold MirrorInv, moistureTick.
    destruct (moistureInterval s) as [[]|]; fields; auto.
  - unfold MirrorInv, badLeafTick.
    destruct (Qltb _ _); [|auto].
    destruct (0 <? _)%nat; [|auto].
    destruct (pickIndex _ _) as [k|]; [|auto].
    destruct (leafRefs s !! k); fields; auto.
  - unfold MirrorInv, onClick. destruct hit as [i|]; [|auto].
    destruct (bool_decide _); unfold setTimeout; fields; auto.
  - split; assumption.
  - unfold MirrorInv, animate. fields. auto.
Qed.

(** X10. In every reachable state the refs hold the same values as their
    state cells ([waterLevelRef] and [waterLevel], [growthLevelRef] and
    [growthLevel]), and the watering effect is shown exactly while
    [watering] is true. *)
Theorem refs_mirror_state (s : State) :
  Reachable s ->
  waterLevelRef s = waterLevel s /\
  growthLevelRef s = growthLevel s /\
  showWaterEffect s = watering s.
Proof.
  intros Hr. split; [apply (reachable_WaterInv s Hr)|].
  induction Hr as [|s e Hr IH].
  - split; reflexivity.
  - now apply MirrorInv_step.
Qed.

Lemma refs_mirror_state_witness :
  let s := run [PointerDown; Elapse 1500; MoistureTick; AnimationFrame] init in
  Reachable s /\ watering s = true /\ showWaterEffect s = watering s.
Proof.
  intros s. assert (Hr : Reachable s) by apply reachable_run.
  split; [exact Hr|]. split; [vm_compute; reflexivity|].
  exact (proj2 (proj2 (refs_mirror_state s Hr))).
Defined.

(** ** Meshes and the unhealthy set *)

Lemma CoherentInv_init : CoherentInv init.
Proof.
  intros i leaf H.
  do 7 (destruct i as [|i];
        [injection H as <-; split; [reflexivity|];
         split; [discriminate | intros Hb; vm_compute in Hb; set_solver]|]).
  discriminate.
Qed.

Lemma CoherentInv_set_timers l n s : CoherentInv s -> CoherentInv (set_timers l n s).
Proof. intros H; exact H. Qed.

Lemma CoherentInv_mark (m : Material) (k : nat) (leafk : Mesh)
    (bad bad' : gset nat) (leaves : list Mesh) :
  (forall i leaf, leaves !! i = Some leaf ->
     userDataIndex leaf = i /\ (material leaf = badMaterial <-> i ∈ bad)) ->
  leaves !! k = Some leafk ->
  (forall i, i <> k -> (i ∈ bad' <-> i ∈ bad)) ->
  (m = badMaterial <-> k ∈ bad') ->
  forall i leaf, <[k := setMaterial m leafk]> leaves !! i = Some leaf ->
     userDataIndex leaf = i /\ (material leaf = badMaterial <-> i ∈ bad').
Proof.
  intros H Hk Hother Hm i leaf Hi.
  destruct (decide (i = k)) as [->|Hne].
  - rewrite list_lookup_insert_eq in Hi by (eapply lookup_lt_Some; eauto).
    injection Hi as <-. cbn [setMaterial userDataIndex material].
    split; [apply (H k leafk Hk) | exact Hm].
  - rewrite list_lookup_insert_ne in Hi by congruence.
    destruct (H i leaf Hi) as [Hidx Hmat]. split; [exact Hidx|].
    rewrite Hmat. symmetry. now apply Hother.
Qed.

Lemma CoherentInv_callback cb s : CoherentInv s -> CoherentInv (runCallback cb s).
Proof.
  intros H. destruct cb as [| |j]; unfold CoherentInv; unfold_ops.
  - destruct (eqb _ _); fields; exact H.
  - destruct (eqb _ _); fields; exact H.
  - fields. destruct (leafRefs s !! j) as [leafj|] eqn:Hj; fields.
    + apply (CoherentInv_mark healthyMaterial j leafj (badLeaves s)); auto.
      * intros i Hne. rewrite elem_of_difference, elem_of_singleton. tauto.
      * rewrite elem_of_difference, elem_of_singleton.
        split; [discriminate | tauto].
    + intros i leaf Hi. destruct (H i leaf Hi) as [Hidx Hmat].
      split; [exact Hidx|]. rewrite Hmat, elem_of_difference, elem_of_singleton.
      split; [|tauto]. intros Hb. split; [exact Hb|]. congruence.
Qed.

Lemma syncMeshes_lookup springs leaves i leaf :
  syncMeshes springs leaves !! i = Some leaf ->
  exists leaf0, leaves !! i = Some leaf0 /\
                material leaf = material leaf0 /\
                userDataIndex leaf = userDataIndex leaf0.
Proof.
  unfold syncMeshes. rewrite list_lookup_imap.
  destruct (leaves !! i) as [leaf0|]; [|discriminate].
  cbn. intros [= <-]. exists leaf0. split; [reflexivity|].
  now destruct (springs !! i).
Qed.

Lemma CoherentInv_step s e : CoherentInv s -> CoherentInv (step s e).
Proof.
  intros H. destruct e; cbn [step].
  - unfold CoherentInv. unfold_ops. fields. exact H.
  - unfold CoherentInv. unfold_ops. fields.
    destruct (watering s); [destruct (eqb _ _)|]; fields; exact H.
  - unfold CoherentInv. unfold_ops. fields.
    destruct (watering s); [destruct (eqb _ _)|]; fields; exact H.
  - apply elapse_preserves;
      auto using CoherentInv_callback, CoherentInv_set_timers.
  - unfold moistureTick. destruct (moistureInterval s) as [[]|]; exact H.
  - unfold badLeafTick.
    destruct (Qltb _ _); [|exact H].
    destruct (0 <? _)%nat; [|exact H].
    destruct (pickIndex _ _) as [k|]; [|exact H].
    destruct (leafRefs s !! k) as [leafk|] eqn:Hk; [|exact H].
    unfold CoherentInv. fields.
    apply (CoherentInv_mark badMaterial k leafk (badLeaves s)); auto.
    + intros i Hne. rewrite elem_of_union, elem_of_singleton. tauto.
    + rewrite elem_of_union, elem_of_singleton. tauto.
  - unfold onClick. destruct hit as [i|]; [|exact H].
    destruct (bool_decide _); [|exact H]. exact H.
  - exact H.
  - unfold CoherentInv, animate. fields. intros i leaf Hi.
    apply syncMeshes_lookup in Hi as (leaf0 & H0 & Hm & Hidx).
    rewrite Hm, Hidx. now apply H.
Qed.

Lemma reachable_CoherentInv s : Reachable s -> CoherentInv s.
Proof. induction 1; auto using CoherentInv_init, CoherentInv_step. Qed.

(** X11. In every reachable state there are exactly seven meshes and seven
    springs, mesh [i] carries the index [i], a mesh has the bad material
    exactly when its index is in the unhealthy set, and the unhealthy set has
    at most seven elements, all below 7. *)
Theorem leaf_store_coherent (s : State) :
  Reachable s ->
  length (leafRefs s) = 7%nat /\ length (leafSprings s) = 7%nat /\
  (forall i, i ∈ badLeaves s -> (i < 7)%nat) /\
  (size (badLeaves s) <= 7)%nat /\
  (forall i leaf, leafRefs s !! i = Some leaf ->
     userDataIndex leaf = i /\
     (material leaf = badMaterial <-> i ∈ badLeaves s)).
Proof.
  intros Hr. destruct (reachable_ShapeInv s Hr) as (Hl & Hs & Hb).
  repeat split; auto; try (apply (reachable_CoherentInv s Hr); assumption).
  change 7%nat with (size (list_to_set (seq 0 7) : gset nat)).
  apply subseteq_size. intros i Hi.
  apply elem_of_list_to_set, elem_of_seq. specialize (Hb i Hi). lia.
Qed.

Lemma leaf_store_coherent_witness :
  let s := run [BadLeafTick 0 (1 # 2); AnimationFrame; Click (Some 3%nat);
                Elapse 100] init in
  Reachable s /\ badLeaves s = {[3%nat]} /\
  (forall leaf, leafRefs s !! 3%nat = Some leaf -> material leaf = badMaterial).
Proof.
  intros s. assert (Hr : Reachable s) by apply reachable_run.
  assert (Hb : badLeaves s = {[3%nat]}) by (vm_compute; reflexivity).
  split; [exact Hr|]. split; [exact Hb|]. intros leaf Hleaf.
  destruct (leaf_store_coherent s Hr) as (_ & _ & _ & _ & Hc).
  apply (Hc 3%nat leaf Hleaf). rewrite Hb. now apply elem_of_singleton.
Defined.

(** ** How the unhealthy set changes *)

Lemma badLeaves_callback cb s : badLeaves (runCallback cb s) ⊆ badLeaves s.
Proof.
  destruct cb as [| |j]; unfold_ops.
  - destruct (eqb _ _); fields; reflexivity.
  - destruct (eqb _ _); fields; reflexivity.
  - fields. destruct (leafRefs s !! j); fields;
      intros i Hi; apply elem_of_difference in Hi; tauto.
Qed.

Lemma badLeaves_elapse d s : badLeaves (elapse d s) ⊆ badLeaves s.
Proof.
  apply (elapse_preserves (fun st => badLeaves st ⊆ badLeaves s)).
  - intros cb st H. etransitivity; [apply badLeaves_callback | exact H].
  - intros l n st H. exact H.
  - reflexivity.
Qed.

Lemma badLeafTick_grows r1 r2 s s' :
  badLeafTick r1 r2 s = Some s' ->
  s' = s \/ exists k, (k ∉ badLeaves s) /\ (k < length (leafRefs s))%nat /\
                      badLeaves s' = {[k]} ∪ badLeaves s.
Proof.
  unfold badLeafTick.
  destruct (Qltb _ _); [|intros [= <-]; now left].
  destruct (0 <? _)%nat; [|intros [= <-]; now left].
  destruct (pickIndex _ _) as [k|] eqn:Hk; [|discriminate].
  destruct (leafRefs s !! k) as [leafk|]; [|discriminate].
  intros [= <-]. right. exists k.
  apply pickIndex_In, candidates_spec in Hk as [Hlt Hnb].
  repeat split; auto.
Qed.

(** X12. Only a damage tick can put a leaf into the unhealthy set and only
    elapsing time (a prune timer firing) can take one out: every other event
    leaves the set as it is, a damage tick never shrinks it and adds at most
    one leaf, and elapsing time never grows it. *)
Theorem health_transitions (s : State) (e : Event) :
  ((forall d, e <> Elapse d) -> badLeaves s ⊆ badLeaves (step s e)) /\
  ((forall r1 r2, e <> BadLeafTick r1 r2) -> badLeaves (step s e) ⊆ badLeaves s) /\
  (size (badLeaves (step s e)) <= S (size (badLeaves s)))%nat.
Proof.
  assert (Hsame : forall b : gset nat, (size b <= S (size b))%nat) by (intros; lia).
  destruct e; cbn [step].
  - unfold_ops. fields. repeat split; auto.
  - unfold_ops. fields.
    destruct (watering s); [destruct (eqb _ _)|]; fields; repeat split; auto.
  - unfold_ops. fields.
    destruct (watering s); [destruct (eqb _ _)|]; fields; repeat split; auto.
  - split; [intros H; now destruct (H d)|].
    split; [intros _; apply badLeaves_elapse|].
    pose proof (subseteq_size _ _ (badLeaves_elapse d s)). lia.
  - unfold moistureTick.
    destruct (moistureInterval s) as [[]|]; fields; repeat split; auto.
  - destruct (badLeafTick r1 r2 s) as [s'|] eqn:Ht; [|repeat split; auto].
    split; [|split].
    + intros _. destruct (badLeafTick_grows _ _ _ _ Ht) as [->|(k & _ & _ & ->)];
        [reflexivity | apply union_subseteq_r].
    + intros H. now destruct (H r1 r2).
    + destruct (badLeafTick_grows _ _ _ _ Ht) as [->|(k & Hk & _ & ->)]; [auto|].
      rewrite size_union by (apply disjoint_singleton_l; exact Hk).
      rewrite size_singleton. lia.
  - unfold onClick. destruct hit as [i|]; [|repeat split; auto].
    destruct (bool_decide _); repeat split; auto.
  - repeat split; auto.
  - repeat split; auto.
Qed.

Lemma health_transitions_witness :
  (forall d, Click (Some 0%nat) <> Elapse d) /\
  badLeaves allBad ⊆ badLeaves (step allBad (Click (Some 0%nat))).
Proof.
  assert (H : forall d, Click (Some 0%nat) <> Elapse d) by (intros d; discriminate).
  split; [exact H|].
  exact (proj1 (health_transitions allBad (Click (Some 0%nat))) H).
Defined.

Lemma callbacks_preserve_when (Q : Timer -> Prop) (P : State -> Prop)
    (due : list Timer) (s : State) :
  (forall t st, Q t -> P st -> P (runCallback (callback t) st)) ->
  Forall Q due -> P s ->
  P (fold_left (fun st t => runCallback (callback t) st) due s).
Proof.
  intros Hstep Hd. revert s.
  induction Hd as [|t due Ht Hd IH]; intros s Hs; cbn [fold_left]; auto.
Qed.

Lemma filter_length_0 {A : Type} (f : A -> bool) (l : list A) :
  length (List.filter f l) = 0%nat -> Forall (fun x => f x = false) l.
Proof.
  induction l as [|x l IH]; cbn [List.filter]; intros H; [constructor|].
  destruct (f x) eqn:E; [discriminate|]. constructor; auto.
Qed.

Lemma filter_length_0_rev {A : Type} (f : A -> bool) (l : list A) :
  Forall (fun x => f x = false) l -> length (List.filter f l) = 0%nat.
Proof.
  induction 1 as [|x l Hx Hl IH]; cbn [List.filter]; [reflexivity|].
  now rewrite Hx.
Qed.

(** No prune of leaf [i] is queued and [i] is unhealthy. *)
Lemma stuck_callback i t st :
  isPruneOf i t = false ->
  (i ∈ badLeaves st) /\ pruneInFlight i st = 0%nat ->
  (i ∈ badLeaves (runCallback (callback t) st)) /\
  pruneInFlight i (runCallback (callback t) st) = 0%nat.
Proof.
  unfold isPruneOf. intros Ht [Hb Hp].
  destruct (callback t) as [| |j]; unfold_ops.
  - unfold pruneInFlight in *.
    destruct (eqb _ _); fields; rewrite List.filter_app, length_app, Hp;
      split; auto.
  - destruct (eqb _ _); fields; split; auto.
  - fields. apply Nat.eqb_neq in Ht.
    destruct (leafRefs st !! j); fields; (split; [|exact Hp]);
      rewrite elem_of_difference, elem_of_singleton; split; auto.
Qed.

Lemma stuck_tick i s :
  (i ∈ badLeaves s) /\ pruneInFlight i s = 0%nat ->
  (i ∈ badLeaves (tick_ms s)) /\ pruneInFlight i (tick_ms s) = 0%nat.
Proof.
  intros [Hb Hp]. unfold tick_ms.
  assert (Hall : Forall (fun t => isPruneOf i t = false) (map age (timers s))).
  { apply Forall_map. apply filter_length_0 in Hp.
    eapply Forall_impl; [exact Hp|]. intros t Ht. exact Ht. }
  apply (callbacks_preserve_when (fun t => isPruneOf i t = false)).
  - intros t st. apply stuck_callback.
  - apply Forall_forall. intros t Ht. apply list_elem_of_In, filter_In in Ht.
    destruct Ht as [Ht _]. rewrite Forall_forall in Hall.
    apply Hall. now apply list_elem_of_In.
  - split; [exact Hb|]. unfold pruneInFlight. fields.
    apply filter_length_0_rev. apply Forall_forall. intros t Ht.
    apply list_elem_of_In, filter_In in Ht. destruct Ht as [Ht _].
    rewrite Forall_forall in Hall. apply Hall. now apply list_elem_of_In.
Qed.

Lemma stuck_elapse i d s :
  i ∈ badLeaves s -> pruneInFlight i s = 0%nat ->
  (i ∈ badLeaves (elapse d s)) /\ pruneInFlight i (elapse d s) = 0%nat.
Proof.
  intros Hb Hp. unfold elapse.
  induction d as [|d IH]; cbn [Nat.iter]; [now split|].
  now apply stuck_tick.
Qed.

(** X13. An unhealthy leaf with no prune sequence pending stays unhealthy
    however much time passes: nothing but a click on it can start its
    recovery. *)
Theorem unhealthy_until_clicked (s : State) (i d : nat) :
  i ∈ badLeaves s -> pruneInFlight i s = 0%nat ->
  (i ∈ badLeaves (step s (Elapse d))) /\
  pruneInFlight i (step s (Elapse d)) = 0%nat.
Proof. intros Hb Hp. now apply stuck_elapse. Qed.

Lemma unhealthy_until_clicked_witness :
  let s := step init (BadLeafTick 0 0) in
  (0%nat ∈ badLeaves s) /\ pruneInFlight 0 s = 0%nat /\
  (0%nat ∈ badLeaves (step s (Elapse 5000))).
Proof.
  intros s.
  assert (Hb : 0%nat ∈ badLeaves s)
    by (apply (bool_decide_eq_true_1 _); vm_compute; reflexivity).
  assert (Hp : pruneInFlight 0 s = 0%nat) by reflexivity.
  split; [exact Hb|]. split; [exact Hp|].
  exact (proj1 (unhealthy_until_clicked s 0 5000 Hb Hp)).
Defined.

(** ** The damage step *)

Lemma Qfloor_unique (x : Q) (j : Z) :
  (inject_Z j <= x)%Q -> (x < inject_Z j + 1)%Q -> Qfloor x = j.
Proof.
  intros H0 H1.
  pose proof (Qfloor_le x) as F0. pose proof (Qlt_floor x) as F1.
  rewrite inject_Z_plus in F1. change (inject_Z 1) with 1%Q in F1.
  assert (A : (inject_Z (Qfloor x) < inject_Z (j + 1))%Q)
    by (rewrite inject_Z_plus; change (inject_Z 1) with 1%Q; lra).
  assert (B : (inject_Z j < inject_Z (Qfloor x + 1))%Q)
    by (rewrite inject_Z_plus; change (inject_Z 1) with 1%Q; lra).
  rewrite <- Zlt_Qlt in A, B. lia.
Qed.

(** X14. [candidates[Math.floor(r * n)]] cuts [[0,1)] into [n] intervals of
    equal length: for a draw [r] with [j <= r * n < j + 1] the entry [j] is
    picked, so a draw in [[0,1)] always picks an entry of a non-empty array. *)
Theorem pick_by_equal_intervals (r : Q) (arr : list nat) (j : nat) :
  (j < length arr)%nat ->
  (inject_Z (Z.of_nat j) <= r * inject_Z (Z.of_nat (length arr)))%Q ->
  (r * inject_Z (Z.of_nat (length arr)) < inject_Z (Z.of_nat j) + 1)%Q ->
  pickIndex r arr = arr !! j /\ exists k, pickIndex r arr = Some k /\ In k arr.
Proof.
  intros Hj H0 H1. unfold pickIndex.
  rewrite (Qfloor_unique _ (Z.of_nat j) H0 H1).
  replace (Z.of_nat j <? 0)%Z with false by (symmetry; apply Z.ltb_ge; lia).
  rewrite Nat2Z.id. split; [reflexivity|].
  destruct (lookup_lt_is_Some_2 arr j Hj) as [k Hk]. exists k.
  split; [exact Hk|]. apply list_elem_of_In. eapply list_elem_of_lookup_2; eauto.
Qed.

Lemma pick_by_equal_intervals_witness :
  pickIndex (1 # 2) [10; 11; 12; 13]%nat = [10; 11; 12; 13]%nat !! 2%nat.
Proof.
  refine (proj1 (pick_by_equal_intervals (1 # 2) [10; 11; 12; 13]%nat 2 _ _ _)).
  - cbn; lia.
  - vm_compute; discriminate.
  - vm_compute; reflexivity.
Defined.

Lemma pickIndex_total (r : Q) (arr : list nat) :
  (0 <= r)%Q -> (r < 1)%Q -> arr <> [] ->
  exists k, pickIndex r arr = Some k /\ In k arr.
Proof.
  intros H0 H1 Hne.
  set (n := inject_Z (Z.of_nat (length arr))).
  assert (Hn : (0 < n)%Q).
  { unfold n. change 0%Q with (inject_Z 0). rewrite <- Zlt_Qlt.
    destruct arr; [congruence | cbn; lia]. }
  set (j := Qfloor (r * n)).
  assert (Hj0 : (0 <= j)%Z).
  { unfold j. change 0%Z with (Qfloor 0). apply Qfloor_resp_le. nra. }
  pose proof (Qfloor_le (r * n)) as F0. pose proof (Qlt_floor (r * n)) as F1.
  fold j in F0, F1.
  rewrite inject_Z_plus in F1. change (inject_Z 1) with 1%Q in F1.
  assert (Hjn : (Z.to_nat j < length arr)%nat).
  { assert (A : (inject_Z j < n)%Q) by nra.
    unfold n in A. rewrite <- Zlt_Qlt in A. lia. }
  apply (pick_by_equal_intervals r arr (Z.to_nat j) Hjn);
    rewrite Z2Nat.id by exact Hj0; assumption.
Qed.

Lemma Qltb_lt (x y : Q) : Qltb x y = true <-> (x < y)%Q.
Proof.
  unfold Qltb. rewrite negb_true_iff. split.
  - intros H. apply Qnot_le_lt. intros Hle. apply Qle_bool_iff in Hle. congruence.
  - intros H. destruct (Qle_bool y x) eqn:E; [|reflexivity].
    apply Qle_bool_iff in E. lra.
Qed.

Lemma badLeafTick_hits (s : State) (r1 r2 : Q) :
  Reachable s ->
  (r1 < getBadLeafChance (waterLevel s))%Q ->
  (0 <= r2)%Q -> (r2 < 1)%Q ->
  (exists i, (i < 7)%nat /\ (i ∉ badLeaves s)) ->
  exists k s', badLeafTick r1 r2 s = Some s' /\
    (k < 7)%nat /\ (k ∉ badLeaves s) /\
    badLeaves s' = {[k]} ∪ badLeaves s /\
    size (badLeaves s') = S (size (badLeaves s)) /\
    waterLevel s' = waterLevel s.
Proof.
  intros Hr H1 H20 H21 (i & Hi & Hib).
  destruct (reachable_ShapeInv s Hr) as (Hl & _ & _).
  destruct (reachable_WaterInv s Hr) as (Href & _ & _).
  assert (Hc : candidates s <> []).
  { intros E. assert (Hin : In i (candidates s))
      by (apply candidates_spec; rewrite Hl; auto).
    rewrite E in Hin. destruct Hin. }
  destruct (pickIndex_total r2 (candidates s) H20 H21 Hc) as (k & Hk & Hin).
  apply candidates_spec in Hin as [Hklt Hkb].
  destruct (lookup_lt_is_Some_2 _ _ Hklt) as [leafk Hleaf].
  exists k. eexists. unfold badLeafTick.
  rewrite Href, (proj2 (Qltb_lt _ _) H1).
  replace (0 <? length (candidates s))%nat with true
    by (symmetry; apply Nat.ltb_lt; destruct (candidates s); [congruence | cbn; lia]).
  rewrite Hk, Hleaf. split; [reflexivity|]. fields.
  repeat split; auto; [lia|].
  rewrite size_union by (apply disjoint_singleton_l; exact Hkb).
  now rewrite size_singleton.
Qed.

Lemma badLeafTick_misses (s : State) (r1 r2 : Q) :
  Reachable s ->
  (getBadLeafChance (waterLevel s) <= r1)%Q -> badLeafTick r1 r2 s = Some s.
Proof.
  intros Hr H. destruct (reachable_WaterInv s Hr) as (Href & _ & _).
  unfold badLeafTick. rewrite Href.
  replace (Qltb r1 (getBadLeafChance (waterLevel s))) with false; [reflexivity|].
  symmetry. unfold Qltb. now apply negb_false_iff, Qle_bool_iff.
Qed.

(** *** The damage probability *)

(** C3, as stated, fails on the numbers the program computes with: the
    doubles [levelB64 < levelA64] are both reached by the water level, and
    the formula rounds both to the same chance, so the chance is not strictly
    decreasing. *)
Lemma chance_not_strictly_decreasing :
  ~ (forall w1 w2 : float,
       (w1 <? w2)%float = true ->
       (getBadLeafChance64 w2 <? getBadLeafChance64 w1)%float = true).
Proof.
  intros H. specialize (H levelB64 levelA64).
  vm_compute in H. specialize (H eq_refl). discriminate.
Qed.

Example chance64_collision :
  (levelB64 <? levelA64)%float = true /\
  getBadLeafChance64 levelB64 = getBadLeafChance64 levelA64 /\
  getBadLeafChance64 levelA64 = 0.13720000000000013%float.
Proof. repeat split; vm_compute; reflexivity. Qed.

(** C3, amended. In a reachable state the chance of a damage tick is
    [0.01 + (1 - w) * 0.24] at the current water level [w] (the ref the tick
    reads holds the state cell's value): the tick leaves the state unchanged
    when its first draw is not below that chance, and damages one healthy
    leaf when the draw is below it, the second draw is in [[0,1)] and a
    healthy leaf exists.  The chance is 0.25 at level 0 and 0.01 at level 1,
    also on doubles; it lies between 0.01 and 0.25 on [[0,1]] and never
    increases when the level increases. *)
Theorem bad_leaf_chance_per_tick (s : State) (r1 r2 w1 w2 : Q) :
  Reachable s ->
  (getBadLeafChance (waterLevelRef s) ==
   0.01 + (1 - waterLevel s) * 0.24)%Q /\
  ((getBadLeafChance (waterLevel s) <= r1)%Q -> badLeafTick r1 r2 s = Some s) /\
  ((r1 < getBadLeafChance (waterLevel s))%Q ->
   (0 <= r2)%Q -> (r2 < 1)%Q ->
   (exists i, (i < 7)%nat /\ (i ∉ badLeaves s)) ->
   exists k s', badLeafTick r1 r2 s = Some s' /\
     (k ∉ badLeaves s) /\ badLeaves s' = {[k]} ∪ badLeaves s) /\
  ((getBadLeafChance 0 == 0.25)%Q /\ (getBadLeafChance 1 == 0.01)%Q /\
   getBadLeafChance64 0 = 0.25%float /\ getBadLeafChance64 1 = 0.01%float) /\
  ((0 <= w1)%Q -> (w1 <= 1)%Q ->
   (0.01 <= getBadLeafChance w1)%Q /\ (getBadLeafChance w1 <= 0.25)%Q) /\
  ((w1 <= w2)%Q -> (getBadLeafChance w2 <= getBadLeafChance w1)%Q).
Proof.
  intros Hr. destruct (reachable_WaterInv s Hr) as (Href & _ & _).
  split; [rewrite Href; unfold getBadLeafChance; lra|].
  split; [now apply badLeafTick_misses|]. split.
  - intros H1 H20 H21 Hh.
    destruct (badLeafTick_hits s r1 r2 Hr H1 H20 H21 Hh)
      as (k & s' & Ht & _ & Hk & Hb & _).
    exists k, s'. auto.
  - split; [|split]; unfold getBadLeafChance.
    + repeat split; try reflexivity; lra.
    + intros; split; lra.
    + intros; lra.
Qed.

Lemma bad_leaf_chance_per_tick_witness :
  let s := run [MoistureTick; MoistureTick] init in
  Reachable s /\
  (getBadLeafChance (waterLevel s) <= (3 # 100))%Q /\
  badLeafTick (3 # 100) (1 # 2) s = Some s /\
  ((1 # 100) < getBadLeafChance (waterLevel s))%Q /\
  (exists k s', badLeafTick (1 # 100) (1 # 2) s = Some s' /\
     (k ∉ badLeaves s) /\ badLeaves s' = {[k]} ∪ badLeaves s) /\
  (getBadLeafChance (3 # 4) <= getBadLeafChance (1 # 4))%Q.
Proof.
  intros s. assert (Hr : Reachable s) by apply reachable_run.
  assert (Hge : (getBadLeafChance (waterLevel s) <= (3 # 100))%Q)
    by (vm_compute; discriminate).
  assert (Hlt : ((1 # 100) < getBadLeafChance (waterLevel s))%Q)
    by (vm_compute; reflexivity).
  split; [exact Hr|]. split; [exact Hge|].
  split; [exact (proj1 (proj2 (bad_leaf_chance_per_tick s (3 # 100) (1 # 2) 0 0 Hr)) Hge)|].
  split; [exact Hlt|]. split.
  - apply (proj1 (proj2 (proj2 (bad_leaf_chance_per_tick s (1 # 100) (1 # 2) 0 0 Hr)))).
    + exact Hlt.
    + vm_compute; discriminate.
    + vm_compute; reflexivity.
    + exists 0%nat. split; [lia|]. apply not_elem_of_empty.
  - apply (proj2 (proj2 (proj2 (proj2 (proj2
             (bad_leaf_chance_per_tick s 0 0 (1 # 4) (3 # 4) Hr)))))).
    vm_compute; discriminate.
Defined.

(** X15. In a reachable state with a healthy leaf left, a damage tick whose
    first draw is below the chance and whose second draw is in [[0,1)] raises
    no error and moves exactly one healthy leaf into the unhealthy set; the
    water level is untouched. *)
Theorem damage_tick_hits (s : State) (r1 r2 : Q) :
  Reachable s ->
  (r1 < getBadLeafChance (waterLevel s))%Q ->
  (0 <= r2)%Q -> (r2 < 1)%Q ->
  (exists i, (i < 7)%nat /\ (i ∉ badLeaves s)) ->
  exists k s', badLeafTick r1 r2 s = Some s' /\
    (k < 7)%nat /\ (k ∉ badLeaves s) /\
    badLeaves s' = {[k]} ∪ badLeaves s /\
    size (badLeaves s') = S (size (badLeaves s)) /\
    waterLevel s' = waterLevel s.
Proof. apply badLeafTick_hits. Qed.

Lemma damage_tick_hits_witness :
  exists k s', badLeafTick (1 # 200) (9 # 10) init = Some s' /\
    (k < 7)%nat /\ (k ∉ badLeaves init) /\
    badLeaves s' = {[k]} ∪ badLeaves init /\
    size (badLeaves s') = S (size (badLeaves init)) /\
    waterLevel s' = waterLevel init.
Proof.
  apply (damage_tick_hits init (1 # 200) (9 # 10) reach_init).
  - vm_compute; reflexivity.
  - vm_compute; discriminate.
  - vm_compute; reflexivity.
  - exists 0%nat. split; [lia|]. apply not_elem_of_empty.
Defined.

(** X16. In every reachable state the chance of the damage step is between
    0.01 and 0.25: a first draw of 0.25 or more never damages a leaf (the
    state is returned unchanged), and a first draw below 0.01 always passes
    the chance test. *)
Theorem damage_thresholds (s : State) (r1 r2 : Q) :
  Reachable s ->
  (0.01 <= getBadLeafChance (waterLevelRef s) <= 0.25)%Q /\
  ((0.25 <= r1)%Q -> badLeafTick r1 r2 s = Some s) /\
  ((r1 < 0.01)%Q -> Qltb r1 (getBadLeafChance (waterLevelRef s)) = true).
Proof.
  intros Hr. destruct (reachable_WaterInv s Hr) as (Href & [H0 H1] & _).
  assert (B : (0.01 <= getBadLeafChance (waterLevelRef s) <= 0.25)%Q)
    by (rewrite Href; unfold getBadLeafChance; lra).
  split; [exact B|]. split.
  - intros H. unfold badLeafTick.
    replace (Qltb r1 (getBadLeafChance (waterLevelRef s))) with false; [reflexivity|].
    symmetry. unfold Qltb. apply negb_false_iff, Qle_bool_iff. lra.
  - intros H. apply Qltb_lt. lra.
Qed.

Lemma damage_thresholds_witness :
  Reachable init /\ (0.25 <= 0.3)%Q /\ badLeafTick 0.3 0 init = Some init.
Proof.
  split; [apply reach_init|]. split; [lra|].
  apply (proj1 (proj2 (damage_thresholds init 0.3 0 reach_init))). lra.
Defined.

(** ** Growth and damage *)

Lemma growthTotal_mark springs (bad : gset nat) (k n : nat) (sp : Spring) :
  (k ∉ bad) -> springs !! k = Some sp ->
  (growthTotal springs ({[k]} ∪ bad) n ==
   growthTotal springs bad n - (if (k <? n)%nat then scale sp else 0))%Q.
Proof.
  intros Hk Hsp. induction n as [|n IH].
  - cbn. lra.
  - rewrite !growthTotal_S.
    destruct (decide (n = k)) as [->|Hne].
    + rewrite Hsp. rewrite (bool_decide_eq_true_2 (k ∈ {[k]} ∪ bad))
        by (apply elem_of_union_l, elem_of_singleton; reflexivity).
      rewrite (bool_decide_eq_false_2 (k ∈ bad)) by exact Hk.
      rewrite IH. rewrite Nat.ltb_irrefl.
      replace (k <? S k)%nat with true by (symmetry; apply Nat.ltb_lt; lia).
      lra.
    + replace (k <? S n)%nat with (k <? n)%nat
        by (destruct (k <? n)%nat eqn:E;
            [apply Nat.ltb_lt in E; symmetry; apply Nat.ltb_lt; lia
            |apply Nat.ltb_ge in E; symmetry; apply Nat.ltb_ge; lia]).
      destruct (springs !! n) as [spn|]; [|exact IH].
      assert (Hiff : bool_decide (n ∈ {[k]} ∪ bad) = bool_decide (n ∈ bad)).
      { apply bool_decide_ext. rewrite elem_of_union, elem_of_singleton. tauto. }
      rewrite Hiff. destruct (bool_decide (n ∈ bad)); [exact IH|].
      rewrite IH. lra.
Qed.

Lemma badLeafTick_frame r1 r2 s s' :
  badLeafTick r1 r2 s = Some s' ->
  leafSprings s' = leafSprings s /\ length (leafRefs s') = length (leafRefs s).
Proof.
  unfold badLeafTick.
  destruct (Qltb _ _); [|intros [= <-]; now split].
  destruct (0 <? _)%nat; [|intros [= <-]; now split].
  destruct (pickIndex _ _) as [k|]; [|discriminate].
  destruct (leafRefs s !! k) as [leafk|]; [|discriminate].
  intros [= <-]. fields. split; [reflexivity | apply length_insert].
Qed.

Lemma healthyScales_mark_out springs (bad : gset nat) (k : nat) :
  (length springs <= k)%nat ->
  healthyScales springs ({[k]} ∪ bad) = healthyScales springs bad.
Proof.
  induction springs as [|x springs IH] using rev_ind; intros Hk; [reflexivity|].
  rewrite length_app in Hk. cbn [length] in Hk.
  rewrite !healthyScales_snoc, IH by lia. f_equal.
  replace (bool_decide (length springs ∈ {[k]} ∪ bad))
    with (bool_decide (length springs ∈ bad)); [reflexivity|].
  apply bool_decide_ext. rewrite elem_of_union, elem_of_singleton.
  split; [tauto | intros [E|?]; [lia | assumption]].
Qed.

Lemma healthyScales_mark springs (bad : gset nat) (k : nat) (sp : Spring) :
  (k ∉ bad) -> springs !! k = Some sp ->
  exists before after,
    healthyScales springs bad = before ++ scale sp :: after /\
    healthyScales springs ({[k]} ∪ bad) = before ++ after.
Proof.
  intros Hk. induction springs as [|x springs IH] using rev_ind; intros Hsp.
  - discriminate.
  - rewrite !healthyScales_snoc.
    destruct (decide (k = length springs)) as [->|Hne].
    + rewrite list_lookup_middle in Hsp by reflexivity. injection Hsp as ->.
      rewrite (bool_decide_eq_false_2 _ Hk).
      rewrite (bool_decide_eq_true_2 (length springs ∈ {[length springs]} ∪ bad))
        by (apply elem_of_union_l, elem_of_singleton; reflexivity).
      rewrite healthyScales_mark_out by lia.
      exists (healthyScales springs bad), []. split; reflexivity.
    + assert (Hlt : (k < length springs)%nat).
      { apply lookup_lt_Some in Hsp. rewrite length_app in Hsp.
        cbn [length] in Hsp. lia. }
      rewrite lookup_app_l in Hsp by exact Hlt.
      destruct (IH Hsp) as (before & after & E1 & E2).
      replace (bool_decide (length springs ∈ {[k]} ∪ bad))
        with (bool_decide (length springs ∈ bad))
        by (apply bool_decide_ext; rewrite elem_of_union, elem_of_singleton;
            split; [tauto | intros [E|?]; [congruence | assumption]]).
      exists before, (after ++ if bool_decide (length springs ∈ bad)
                               then [] else [scale x]).
      rewrite E1, E2, <- !app_assoc. split; reflexivity.
Qed.

(** X17. When a damage tick moves leaf [k] into the unhealthy set, the
    scales the next frame counts are those a frame would have counted before
    the tick with the scale of leaf [k] left out, all others in place; if
    that scale is not negative the growth level the frame computes is not
    higher than before. *)
Theorem damage_lowers_growth (s s' : State) (r1 r2 : Q) (k : nat) (sp : Spring) :
  Reachable s ->
  badLeafTick r1 r2 s = Some s' ->
  (k ∉ badLeaves s) -> badLeaves s' = {[k]} ∪ badLeaves s ->
  leafSprings s !! k = Some sp ->
  (exists before after,
     healthyScales (leafSprings s) (badLeaves s) = before ++ scale sp :: after /\
     healthyScales (leafSprings s') (badLeaves s') = before ++ after) /\
  ((0 <= scale sp)%Q ->
   (growthLevel (animate s') <= growthLevel (animate s))%Q).
Proof.
  intros Hr Ht Hk Hb Hsp.
  destruct (reachable_ShapeInv s Hr) as (Hl & Hs & _).
  destruct (badLeafTick_frame _ _ _ _ Ht) as [Esp Elen].
  split.
  - rewrite Esp, Hb. now apply healthyScales_mark.
  - intros Hpos. unfold animate. fields.
    rewrite !syncMeshes_length, Elen, Esp, Hb, Hl.
    rewrite (growthTotal_mark _ _ k 7 sp Hk Hsp).
    assert (Hk7 : (k < 7)%nat) by (rewrite <- Hs; eapply lookup_lt_Some; eauto).
    replace (k <? 7)%nat with true by (symmetry; apply Nat.ltb_lt; exact Hk7).
    unfold leafTotal. set (c := growthTotal _ _ _).
    assert (E1 : ((c - scale sp) / 7 * 7 == c - scale sp)%Q) by field.
    assert (E2 : (c / 7 * 7 == c)%Q) by field.
    lra.
Qed.

Lemma damage_lowers_growth_witness :
  let s := step init (SpringFrame [0.5; 0.25]%Q) in
  exists s', badLeafTick 0 0 s = Some s' /\
    healthyScales (leafSprings s') (badLeaves s') = [0.25; 1; 1; 1; 1; 1]%Q /\
    (growthLevel (animate s') <= growthLevel (animate s))%Q.
Proof.
  intros s.
  assert (Hr : Reachable s) by (apply reach_step, reach_init).
  destruct (badLeafTick 0 0 s) as [s'|] eqn:Ht; [|vm_compute in Ht; discriminate].
  exists s'. split; [reflexivity|].
  assert (Hb : badLeaves s' = {[0%nat]} ∪ badLeaves s).
  { vm_compute in Ht. injection Ht as <-. vm_compute. reflexivity. }
  split.
  - vm_compute in Ht. injection Ht as <-. vm_compute. reflexivity.
  - apply (proj2 (damage_lowers_growth s s' 0 0 0%nat (mkSpring 0.5 1 defaultSpring)
                    Hr Ht (not_elem_of_empty _) Hb eq_refl)).
    vm_compute; discriminate.
Defined.

(** ** Charging *)

Lemma moistureTick_charge st :
  moistureInterval st = Some Charge ->
  moistureInterval (moistureTick st) = Some Charge /\
  waterLevel (moistureTick st) = chargeRule (waterLevel st).
Proof. intros H. unfold moistureTick. rewrite H. now split. Qed.

Lemma chargeTicks_rule n s :
  moistureInterval s = Some Charge ->
  moistureInterval (Nat.iter n moistureTick s) = Some Charge /\
  waterLevel (Nat.iter (S n) moistureTick s) =
    chargeRule (waterLevel (Nat.iter n moistureTick s)).
Proof.
  intros Hc.
  assert (Hi : moistureInterval (Nat.iter n moistureTick s) = Some Charge).
  { induction n as [|n IH]; [exact Hc|]. cbn [Nat.iter].
    now apply moistureTick_charge. }
  split; [exact Hi|]. cbn [Nat.iter]. now apply moistureTick_charge.
Qed.

Lemma chargeRule_raises (w : Q) :
  (w <= 1)%Q ->
  (w <= chargeRule w)%Q /\ (chargeRule w <= 1)%Q /\
  ((w < 1)%Q -> (w < chargeRule w)%Q) /\
  ((0.98 <= w)%Q -> (chargeRule w == 1)%Q) /\
  ((chargeRule w < 1)%Q -> (chargeRule w == w + 0.02)%Q).
Proof.
  intros H. unfold chargeRule.
  destruct (Q.min_spec 1 (w + 0.02)) as [[? ->] | [? ->]];
    repeat split; intros; lra.
Qed.

Lemma chargeTicks_lower_bound n s :
  moistureInterval s = Some Charge -> (waterLevel s <= 1)%Q ->
  let level := waterLevel (Nat.iter n moistureTick s) in
  (waterLevel s <= level)%Q /\ (level <= 1)%Q /\
  ((level < 1)%Q -> (level == waterLevel s + 0.02 * inject_Z (Z.of_nat n))%Q).
Proof.
  intros Hi H1. induction n as [|n (IH0 & IH1 & IH2)]; intros level.
  - unfold level. change (Nat.iter 0 moistureTick s) with s.
    change (inject_Z (Z.of_nat 0)) with 0%Q. repeat split; intros; lra.
  - unfold level. rewrite (proj2 (chargeTicks_rule n s Hi)).
    set (x := waterLevel (Nat.iter n moistureTick s)) in *.
    destruct (chargeRule_raises x IH1) as (R0 & R1 & R2 & _ & R4).
    split; [lra|]. split; [exact R1|].
    intros Hlt. rewrite (R4 Hlt).
    rewrite Nat2Z.inj_succ. unfold Z.succ. rewrite inject_Z_plus.
    change (inject_Z 1) with 1%Q.
    assert (Hx : (x < 1)%Q) by lra. rewrite (IH2 Hx). ring.
Qed.

(** X18. While watering, moisture ticks in a row never lower the level and
    keep it at most 1; a tick strictly raises a level below 1; 50 ticks fill
    the pot from any level, and a full pot stays full. *)
Theorem charge_ticks_fill (s : State) (n : nat) :
  Reachable s -> watering s = true ->
  let level := waterLevel (Nat.iter n moistureTick s) in
  ((waterLevel s <= level)%Q /\ (level <= 1)%Q) /\
  ((level < 1)%Q -> (level < waterLevel (Nat.iter (S n) moistureTick s))%Q) /\
  ((50 <= n)%nat -> (level == 1)%Q) /\
  ((waterLevel s == 1)%Q -> (level == 1)%Q).
Proof.
  intros Hr Hw level.
  destruct (reachable_WaterInv s Hr) as (_ & [H0 H1] & Hi).
  rewrite Hw in Hi. cbn in Hi.
  destruct (chargeTicks_lower_bound n s Hi H1) as (L0 & L1 & L2).
  fold level in L0, L1, L2.
  split; [split; assumption|]. split; [|split].
  - intros Hlt. rewrite (proj2 (chargeTicks_rule n s Hi)). fold level.
    now apply chargeRule_raises.
  - intros Hn.
    assert (Hk : (50 <= inject_Z (Z.of_nat n))%Q)
      by (change 50%Q with (inject_Z 50); rewrite <- Zle_Qle; lia).
    destruct (Qlt_le_dec level 1) as [Hlt|Hge]; [|lra].
    specialize (L2 Hlt). lra.
  - intros Hfull. lra.
Qed.

Lemma charge_ticks_fill_witness :
  let s := run (List.repeat MoistureTick 600 ++ [PointerDown; Elapse 1000]) init in
  Reachable s /\ watering s = true /\ (waterLevel s == 0)%Q /\
  (waterLevel (Nat.iter 50 moistureTick s) == 1)%Q.
Proof.
  intros s. assert (Hr : Reachable s) by apply reachable_run.
  assert (Hw : watering s = true) by (vm_compute; reflexivity).
  split; [exact Hr|]. split; [exact Hw|]. split; [vm_compute; reflexivity|].
  apply (proj1 (proj2 (proj2 (charge_ticks_fill s 50 Hr Hw)))). lia.
Defined.

(** ** Timer identifiers *)

Lemma tids_filter (f : Timer -> bool) (l : list Timer) (id : nat) :
  In id (map tid (List.filter f l)) -> In id (map tid l).
Proof.
  rewrite !in_map_iff. intros (t & Ht & Hin). apply filter_In in Hin.
  exists t. tauto.
Qed.

Lemma NoDup_tids_filter (f : Timer -> bool) (l : list Timer) :
  NoDup (map tid l) -> NoDup (map tid (List.filter f l)).
Proof.
  induction l as [|t l IH]; cbn [map List.filter]; intros H; [constructor|].
  apply NoDup_cons in H as [Hn Hd].
  destruct (f t); cbn [map]; [|now apply IH].
  apply NoDup_cons. split; [|now apply IH].
  intros Hin. apply Hn. apply list_elem_of_In. apply list_elem_of_In in Hin.
  eapply tids_filter; eauto.
Qed.

Lemma tids_age (l : list Timer) : map tid (map age l) = map tid l.
Proof. rewrite map_map. reflexivity. Qed.

Lemma NoDup_tids_push (l : list Timer) (n d : nat) (cb : Callback) :
  NoDup (map tid l) -> (forall t, In t l -> (tid t < n)%nat) ->
  NoDup (map tid (l ++ [mkTimer n d cb])).
Proof.
  intros Hd Hlt. rewrite map_app. cbn [map tid].
  apply NoDup_app. split; [exact Hd|]. split; [|apply NoDup_singleton].
  intros id Hid Hn. apply list_elem_of_In, in_map_iff in Hid as (t & <- & Ht).
  apply list_elem_of_singleton in Hn. specialize (Hlt t Ht). lia.
Qed.

Lemma TimerInv_cleared r s :
  TimerInv s -> TimerInv (set_timers (cleared r (timers s)) (nextTimerId s) s).
Proof.
  intros (Hd & Hlt & Hh & Hw). unfold TimerInv. fields.
  destruct r as [id|]; cbn [cleared]; repeat split; auto.
  - now apply NoDup_tids_filter.
  - intros t Ht. apply filter_In in Ht as [Ht _]. now apply Hlt.
Qed.

Lemma TimerInv_callback cb s : TimerInv s -> TimerInv (runCallback cb s).
Proof.
  intros (Hd & Hlt & Hh & Hw). destruct cb as [| |j]; unfold TimerInv; unfold_ops.
  - destruct (eqb _ _); fields; repeat split;
      try (now apply NoDup_tids_push);
      try (intros t Ht; apply in_app_or in Ht as [Ht|[<-|[]]];
           [specialize (Hlt t Ht); lia | cbn; lia]);
      try (intros k Hk; specialize (Hh k Hk); lia);
      try (intros k [= <-]; lia).
  - destruct (eqb _ _); fields; repeat split; auto.
  - fields. destruct (leafRefs s !! j); fields; repeat split; auto.
Qed.

Lemma TimerInv_tick s : TimerInv s -> TimerInv (tick_ms s).
Proof.
  intros (Hd & Hlt & Hh & Hw). unfold tick_ms.
  apply callbacks_preserve; [apply TimerInv_callback|].
  unfold TimerInv. fields. repeat split; auto.
  - apply NoDup_tids_filter. now rewrite tids_age.
  - intros t Ht. apply filter_In in Ht as [Ht _].
    apply in_map_iff in Ht as (t0 & <- & Ht0). exact (Hlt t0 Ht0).
Qed.

Lemma TimerInv_init : TimerInv init.
Proof.
  repeat split; try discriminate; [constructor | intros t []].
Qed.

Lemma TimerInv_push cb d s :
  TimerInv s -> TimerInv (fst (setTimeout cb d s)).
Proof.
  intros (Hd & Hlt & Hh & Hw). unfold TimerInv, setTimeout. fields.
  repeat split.
  - now apply NoDup_tids_push.
  - intros t Ht. apply in_app_or in Ht as [Ht|[<-|[]]];
      [specialize (Hlt t Ht); lia | cbn; lia].
  - intros k Hk. specialize (Hh k Hk). lia.
  - intros k Hk. specialize (Hw k Hk). lia.
Qed.

Lemma TimerInv_step s e : TimerInv s -> TimerInv (step s e).
Proof.
  intros H. destruct e; cbn [step].
  - unfold handlePlantAreaPointerDown. rewrite clearRef_eq.
    apply (TimerInv_cleared (wateringTimeout s)) in H.
    destruct H as (Hd & Hlt & Hh & Hw). unfold TimerInv, setTimeout, setHolding.
    fields. repeat split.
    + now apply NoDup_tids_push.
    + intros t Ht. apply in_app_or in Ht as [Ht|[<-|[]]];
        [specialize (Hlt t Ht); lia | cbn; lia].
    + intros k [= <-]. lia.
    + intros k Hk. specialize (Hw k Hk). lia.
  - unfold handlePlantAreaPointerUp. rewrite !clearRef_eq. fields.
    assert (H2 : TimerInv
      (set_timers (cleared (wateringTimeout s) (cleared (holdTimeout s) (timers s)))
                  (nextTimerId s) s)).
    { apply (TimerInv_cleared (holdTimeout s)) in H.
      apply (TimerInv_cleared (wateringTimeout s)) in H. exact H. }
    unfold setWatering. fields.
    destruct (watering s); [destruct (eqb _ _)|]; exact H2.
  - unfold handlePlantAreaPointerLeave. rewrite !clearRef_eq. fields.
    assert (H2 : TimerInv
      (set_timers (cleared (wateringTimeout s) (cleared (holdTimeout s) (timers s)))
                  (nextTimerId s) s)).
    { apply (TimerInv_cleared (holdTimeout s)) in H.
      apply (TimerInv_cleared (wateringTimeout s)) in H. exact H. }
    unfold setWatering. fields.
    destruct (watering s); [destruct (eqb _ _)|]; exact H2.
  - unfold elapse. induction d as [|d IH]; cbn [Nat.iter]; [exact H|].
    now apply TimerInv_tick.
  - unfold moistureTick. destruct (moistureInterval s) as [[]|]; exact H.
  - unfold badLeafTick.
    destruct (Qltb _ _); [|exact H].
    destruct (0 <? _)%nat; [|exact H].
    destruct (pickIndex _ _) as [k|]; [|exact H].
    destruct (leafRefs s !! k); exact H.
  - unfold onClick. destruct hit as [i|]; [|exact H].
    destruct (bool_decide _); [|exact H].
    now apply (TimerInv_push (PruneFired i) 600
                 (set_leafSprings (apiStart (onlyLeaf i 0 defaultSpring) (leafSprings s)) s)).
  - exact H.
  - exact H.
Qed.

Lemma reachable_TimerInv s : Reachable s -> TimerInv s.
Proof. induction 1; auto using TimerInv_init, TimerInv_step. Qed.

(** ** More of the watering gesture *)

(** A single queued hold timer: the flag is untouched until it fires, then
    a session of 1200ms runs. *)
Lemma hold_then_session w h x n k (r d : nat) :
  Nat.iter d vtick (mkGesture w h x n [mkTimer k (S r) HoldFired]) =
  if (d <? S r)%nat then
    mkGesture w h x n [mkTimer k (S r - d) HoldFired]
  else if (d <? S r + 1200)%nat then
    mkGesture true h (Some n) (S n) [mkTimer n (S r + 1200 - d) SessionFired]
  else
    mkGesture false h (Some n) (S n) [].
Proof.
  destruct (d <? S r)%nat eqn:H1.
  - apply Nat.ltb_lt in H1. now apply countdown.
  - apply Nat.ltb_ge in H1.
    destruct (Nat.le_exists_sub (S r) d H1) as (e & -> & _).
    rewrite Nat.iter_add, countdown_fire.
    cbn [vrun gHold gNext gTimers app].
    destruct (e + S r <? S r + 1200)%nat eqn:H2.
    + apply Nat.ltb_lt in H2. rewrite countdown by lia.
      replace (S r + 1200 - (e + S r))%nat with (1200 - e)%nat by lia.
      reflexivity.
    + apply Nat.ltb_ge in H2.
      destruct (Nat.le_exists_sub 1200 e) as (e' & -> & _); [lia|].
      rewrite Nat.iter_add.
      change 1200%nat with (S 1199). rewrite countdown_fire.
      cbn [vrun gHold gSession gNext gTimers].
      apply no_timer_rest.
Qed.

Lemma holding_release s : holding (handlePlantAreaPointerUp s) = false.
Proof.
  unfold handlePlantAreaPointerUp. rewrite !clearRef_eq. unfold setWatering.
  fields. destruct (watering s); [destruct (eqb _ _)|]; reflexivity.
Qed.

(** X20. A release (or leaving the area) while the session runs, between
    1000ms and 2199ms after the pointer-down, ends it at once: [watering]
    and [holding] are false, the session timer is cancelled, no hold or
    session timer is left, and [watering] stays false afterwards. *)
Theorem release_ends_session (s : State) (a : nat) :
  idle s -> (1000 <= a < 2200)%nat ->
  let during := step (step s PointerDown) (Elapse a) in
  watering during = true /\
  (forall e, e = PointerUp \/ e = PointerLeave ->
     idle (step during e) /\ holding (step during e) = false /\
     forall d, watering (step (step during e) (Elapse d)) = false).
Proof.
  intros Hi Ha during.
  assert (V : view during =
              mkGesture true (Some (nextTimerId s)) (Some (S (nextTimerId s)))
                (S (S (nextTimerId s)))
                [mkTimer (S (nextTimerId s)) (2200 - a) SessionFired]).
  { unfold during. cbn [step]. rewrite (held_view s a Hi).
    replace (a <? 1000)%nat with false by (symmetry; apply Nat.ltb_ge; lia).
    replace (a <? 2200)%nat with true by (symmetry; apply Nat.ltb_lt; lia).
    reflexivity. }
  split; [rewrite watering_view, V; reflexivity|].
  assert (U : view (handlePlantAreaPointerUp during) =
              mkGesture false (Some (nextTimerId s)) (Some (S (nextTimerId s)))
                (S (S (nextTimerId s))) []).
  { rewrite view_up, V. unfold vup.
    cbn [gWatering gHold gSession gNext gTimers cleared List.filter tid].
    replace (S (nextTimerId s) =? nextTimerId s)%nat with false
      by (symmetry; apply Nat.eqb_neq; lia).
    cbn [negb List.filter tid]. rewrite Nat.eqb_refl. reflexivity. }
  intros e He.
  assert (E : step during e = handlePlantAreaPointerUp during)
    by (destruct He as [-> | ->]; reflexivity).
  rewrite E. split; [|split].
  - apply idle_view. rewrite U. split; reflexivity.
  - apply holding_release.
  - intros d. cbn [step]. rewrite watering_view, view_elapse, U.
    now rewrite no_timer_rest.
Qed.

Lemma release_ends_session_witness :
  idle init /\ (1000 <= 1500 < 2200)%nat /\
  watering (step (step init PointerDown) (Elapse 1500)) = true /\
  watering (step (step (step (step init PointerDown) (Elapse 1500)) PointerUp)
                 (Elapse 100)) = false.
Proof.
  assert (Hi : idle init) by (split; reflexivity).
  assert (Ha : (1000 <= 1500 < 2200)%nat) by lia.
  destruct (release_ends_session init 1500 Hi Ha) as [H1 H2].
  split; [exact Hi|]. split; [exact Ha|]. split; [exact H1|].
  destruct (H2 PointerUp (or_introl eq_refl)) as (_ & _ & H3). apply H3.
Defined.

(** X21. A pointer-down does not cancel a hold timer that is already
    queued. After a second pointer-down [a] ms into a hold (no release in
    between) a release cancels only the second hold timer: [holding] and
    [watering] are false right after it, yet the first timer still fires
    [1000 - a] ms later and [watering] is then true for 1200ms with no
    pointer down. *)
Theorem second_press_leaks_hold (s : State) (a : nat) :
  Reachable s -> idle s -> (a < 1000)%nat ->
  let released :=
    step (step (step (step s PointerDown) (Elapse a)) PointerDown) PointerUp in
  holding released = false /\ watering released = false /\
  (forall d, (d < 1000 - a)%nat ->
     watering (step released (Elapse d)) = false) /\
  (forall d, (1000 - a <= d < 2200 - a)%nat ->
     watering (step released (Elapse d)) = true) /\
  (forall d, (2200 - a <= d)%nat ->
     watering (step released (Elapse d)) = false).
Proof.
  intros Hr Hi Ha released.
  destruct (reachable_TimerInv s Hr) as (_ & _ & _ & Hw).
  set (n := nextTimerId s) in *. set (x := wateringTimeout s) in *.
  assert (Hx : cleared x [mkTimer n (1000 - a) HoldFired] =
               [mkTimer n (1000 - a) HoldFired]).
  { destruct x as [k|] eqn:Ex; [|reflexivity]. cbn [cleared List.filter tid].
    replace (n =? k)%nat with false
      by (symmetry; apply Nat.eqb_neq; specialize (Hw k eq_refl); lia).
    reflexivity. }
  assert (V : view released =
              mkGesture false (Some (S n)) x (S (S n))
                        [mkTimer n (1000 - a) HoldFired]).
  { unfold released. cbn [step].
    rewrite view_up, view_down, (held_view s a Hi).
    replace (a <? 1000)%nat with true by (symmetry; apply Nat.ltb_lt; lia).
    fold n x. unfold vdown, vup.
    cbn [gWatering gHold gSession gNext gTimers]. rewrite Hx.
    cbn [app cleared List.filter tid].
    replace (n =? S n)%nat with false by (symmetry; apply Nat.eqb_neq; lia).
    rewrite Nat.eqb_refl. cbn [negb]. rewrite Hx. reflexivity. }
  split; [apply holding_release|].
  split; [rewrite watering_view, V; reflexivity|].
  assert (Hd : forall d, watering (step released (Elapse d)) =
    gWatering (if (d <? 1000 - a)%nat then
       mkGesture false (Some (S n)) x (S (S n)) [mkTimer n (1000 - a - d) HoldFired]
     else if (d <? 1000 - a + 1200)%nat then
       mkGesture true (Some (S n)) (Some (S (S n))) (S (S (S n)))
                 [mkTimer (S (S n)) (1000 - a + 1200 - d) SessionFired]
     else mkGesture false (Some (S n)) (Some (S (S n))) (S (S (S n))) [])).
  { intros d. cbn [step]. rewrite watering_view, view_elapse, V.
    replace (1000 - a)%nat with (S (999 - a)) by lia.
    now rewrite hold_then_session. }
  split; [|split].
  - intros d H. rewrite Hd.
    replace (d <? 1000 - a)%nat with true by (symmetry; apply Nat.ltb_lt; lia).
    reflexivity.
  - intros d H. rewrite Hd.
    replace (d <? 1000 - a)%nat with false by (symmetry; apply Nat.ltb_ge; lia).
    replace (d <? 1000 - a + 1200)%nat with true
      by (symmetry; apply Nat.ltb_lt; lia).
    reflexivity.
  - intros d H. rewrite Hd.
    replace (d <? 1000 - a)%nat with false by (symmetry; apply Nat.ltb_ge; lia).
    replace (d <? 1000 - a + 1200)%nat with false
      by (symmetry; apply Nat.ltb_ge; lia).
    reflexivity.
Qed.

Lemma second_press_leaks_hold_witness :
  Reachable init /\ idle init /\ (400 < 1000)%nat /\
  holding (step (step (step (step init PointerDown) (Elapse 400)) PointerDown)
                PointerUp) = false /\
  watering (step (step (step (step (step init PointerDown) (Elapse 400))
                                 PointerDown) PointerUp) (Elapse 600)) = true.
Proof.
  assert (Hi : idle init) by (split; reflexivity).
  assert (Ha : (400 < 1000)%nat) by lia.
  destruct (second_press_leaks_hold init 400 reach_init Hi Ha)
    as (H1 & _ & _ & H4 & _).
  split; [apply reach_init|]. split; [exact Hi|]. split; [exact Ha|].
  split; [exact H1 | apply H4; lia].
Defined.

(** X22. A second pointer-down while the session runs (no release in
    between) cancels the session timer without stopping the session:
    [watering] stays true for the next 2200ms, that is until the new hold has
    fired and its own session timer has run out. *)
Theorem press_during_session_extends (s : State) (a : nat) :
  idle s -> (1000 <= a < 2200)%nat ->
  let again := step (step (step s PointerDown) (Elapse a)) PointerDown in
  (forall d, (d < 2200)%nat -> watering (step again (Elapse d)) = true) /\
  (forall d, (2200 <= d)%nat -> watering (step again (Elapse d)) = false).
Proof.
  intros Hi Ha again.
  set (n := nextTimerId s).
  assert (V : view again =
              mkGesture true (Some (S (S n))) (Some (S n)) (S (S (S n)))
                        [mkTimer (S (S n)) 1000 HoldFired]).
  { unfold again. cbn [step]. rewrite view_down, (held_view s a Hi).
    replace (a <? 1000)%nat with false by (symmetry; apply Nat.ltb_ge; lia).
    replace (a <? 2200)%nat with true by (symmetry; apply Nat.ltb_lt; lia).
    fold n. unfold vdown.
    cbn [gWatering gHold gSession gNext gTimers cleared List.filter tid].
    rewrite Nat.eqb_refl. reflexivity. }
  assert (Hd : forall d, watering (step again (Elapse d)) =
    gWatering (if (d <? 1000)%nat then
       mkGesture true (Some (S (S n))) (Some (S n)) (S (S (S n)))
                 [mkTimer (S (S n)) (1000 - d) HoldFired]
     else if (d <? 1000 + 1200)%nat then
       mkGesture true (Some (S (S n))) (Some (S (S (S n)))) (S (S (S (S n))))
                 [mkTimer (S (S (S n))) (1000 + 1200 - d) SessionFired]
     else mkGesture false (Some (S (S n))) (Some (S (S (S n))))
                    (S (S (S (S n)))) [])).
  { intros d. cbn [step]. rewrite watering_view, view_elapse, V.
    change 1000%nat with (S 999). now rewrite hold_then_session. }
  split.
  - intros d H. rewrite Hd.
    destruct (d <? 1000)%nat; [reflexivity|].
    replace (d <? 1000 + 1200)%nat with true
      by (symmetry; apply Nat.ltb_lt; lia).
    reflexivity.
  - intros d H. rewrite Hd.
    replace (d <? 1000)%nat with false by (symmetry; apply Nat.ltb_ge; lia).
    replace (d <? 1000 + 1200)%nat with false
      by (symmetry; apply Nat.ltb_ge; lia).
    reflexivity.
Qed.

Lemma press_during_session_extends_witness :
  idle init /\ (1000 <= 2000 < 2200)%nat /\
  watering (step (step (step (step init PointerDown) (Elapse 2000)) PointerDown)
                 (Elapse 2199)) = true.
Proof.
  assert (Hi : idle init) by (split; reflexivity).
  assert (Ha : (1000 <= 2000 < 2200)%nat) by lia.
  split; [exact Hi|]. split; [exact Ha|].
  apply (proj1 (press_during_session_extends init 2000 Hi Ha)). lia.
Defined.

(** ** Damage and prune as a round trip *)

Lemma badLeafTick_timers r1 r2 s s' :
  badLeafTick r1 r2 s = Some s' -> timers s' = timers s.
Proof.
  unfold badLeafTick.
  destruct (Qltb _ _); [|now intros [= <-]].
  destruct (0 <? _)%nat; [|now intros [= <-]].
  destruct (pickIndex _ _) as [k|]; [|discriminate].
  destruct (leafRefs s !! k) as [leafk|]; [|discriminate].
  now intros [= <-].
Qed.

(** X23. Damage followed by pruning is a round trip on the unhealthy set:
    when no prune sequence is pending and a damage tick moves leaf [k] into
    the set, a click on [k] and 600ms later the set is what it was before
    the tick. *)
Theorem damage_prune_round_trip (s s' : State) (r1 r2 : Q) (k : nat) :
  Reachable s ->
  (forall j, pruneInFlight j s = 0%nat) ->
  badLeafTick r1 r2 s = Some s' ->
  k ∉ badLeaves s -> badLeaves s' = {[k]} ∪ badLeaves s ->
  badLeaves (step (step s' (Click (Some k))) (Elapse 600)) = badLeaves s.
Proof.
  intros Hr Hnone Ht Hk Hb.
  assert (Hr' : Reachable s').
  { replace s' with (step s (BadLeafTick r1 r2));
      [now apply reach_step | cbn [step]; now rewrite Ht]. }
  destruct (reachable_ShapeInv s' Hr') as (Hl & Hs & Hlt).
  assert (Hkb : k ∈ badLeaves s')
    by (rewrite Hb; apply elem_of_union_l, elem_of_singleton; reflexivity).
  pose proof (Hlt k Hkb) as Hk7.
  set (s2 := step s' (Click (Some k))).
  assert (E : s2 = fst (setTimeout (PruneFired k) 600
                (set_leafSprings
                   (apiStart (onlyLeaf k 0 defaultSpring) (leafSprings s')) s'))).
  { unfold s2. cbn [step]. unfold onClick. now rewrite bool_decide_eq_true_2. }
  assert (Hp : prunePending k 600 s2).
  { rewrite E. exists (mkTimer (nextTimerId s') 600 (PruneFired k)).
    unfold setTimeout. fields. split; [|split; reflexivity].
    apply in_or_app. right. now left. }
  assert (He : leafExists k s2).
  { rewrite E. unfold leafExists, setTimeout. fields.
    rewrite apiStart_length. lia. }
  assert (Hb2 : badLeaves s2 = {[k]} ∪ badLeaves s) by (rewrite E; exact Hb).
  change (step s2 (Elapse 600)) with (elapse 600 s2).
  apply set_eq. intros j. split.
  - intros Hj.
    assert (Hne : j <> k).
    { intros ->. change 600%nat with (S 599) in Hp, Hj.
      now apply (prune_completes k 599 s2 He Hp). }
    apply badLeaves_elapse in Hj. rewrite Hb2 in Hj.
    apply elem_of_union in Hj as [Hj|Hj]; [|exact Hj].
    apply elem_of_singleton in Hj. congruence.
  - intros Hj.
    assert (Hne : j <> k) by congruence.
    apply stuck_elapse.
    + rewrite Hb2. now apply elem_of_union_r.
    + rewrite E, pruneInFlight_setTimeout.
      replace (Nat.eqb k j) with false by (symmetry; apply Nat.eqb_neq; congruence).
      unfold pruneInFlight. fields.
      rewrite (badLeafTick_timers _ _ _ _ Ht). fold (pruneInFlight j s).
      rewrite Hnone. reflexivity.
Qed.

Lemma damage_prune_round_trip_witness :
  exists s', badLeafTick 0 (1 # 2) init = Some s' /\
    badLeaves (step (step s' (Click (Some 3%nat))) (Elapse 600)) = badLeaves init.
Proof.
  destruct (badLeafTick 0 (1 # 2) init) as [s'|] eqn:Ht;
    [|vm_compute in Ht; discriminate].
  exists s'. split; [reflexivity|].
  apply (damage_prune_round_trip init s' 0 (1 # 2) 3 reach_init).
  - intros j. reflexivity.
  - exact Ht.
  - apply not_elem_of_empty.
  - vm_compute in Ht. injection Ht as <-. vm_compute. reflexivity.
Defined.

(** ** Counting the healthy leaves *)

Lemma candidates_count s :
  ShapeInv s ->
  NoDup (candidates s) /\
  (length (candidates s) + size (badLeaves s) = 7)%nat.
Proof.
  intros (Hl & _ & Hb).
  assert (Hn : NoDup (candidates s)).
  { unfold candidates. apply NoDup_ListNoDup, List.NoDup_filter, List.seq_NoDup. }
  split; [exact Hn|].
  rewrite <- (size_list_to_set (C := gset nat) (candidates s) Hn).
  rewrite <- size_union.
  - assert (E : list_to_set (candidates s) ∪ badLeaves s
                = (list_to_set (seq 0 7) : gset nat)).
    { apply set_eq. intros i.
      rewrite elem_of_union, !elem_of_list_to_set, elem_of_seq.
      rewrite list_elem_of_In, candidates_spec, Hl.
      split.
      - intros [[H1 _]|H1]; [lia | specialize (Hb i H1); lia].
      - intros H1. destruct (decide (i ∈ badLeaves s)); [now right | left].
        split; [lia | assumption]. }
    rewrite E. reflexivity.
  - intros i Hi Hib. apply elem_of_list_to_set, list_elem_of_In in Hi.
    apply candidates_spec in Hi. tauto.
Qed.

(** X24. In every reachable state the damage step has exactly
    [7 - |unhealthy set|] candidates, without repetition: the indices below
    7 that are not in the unhealthy set. *)
Theorem candidates_are_healthy_leaves (s : State) :
  Reachable s ->
  NoDup (candidates s) /\
  length (candidates s) = (7 - size (badLeaves s))%nat /\
  (forall k, In k (candidates s) <-> (k < 7)%nat /\ k ∉ badLeaves s).
Proof.
  intros Hr. pose proof (reachable_ShapeInv s Hr) as Hs.
  destruct (candidates_count s Hs) as [Hn Hc].
  split; [exact Hn|]. split; [lia|].
  intros k. rewrite candidates_spec. destruct Hs as (Hl & _). now rewrite Hl.
Qed.

Lemma candidates_are_healthy_leaves_witness :
  let s := run [BadLeafTick 0 0; BadLeafTick 0 0] init in
  Reachable s /\ candidates s = [2; 3; 4; 5; 6]%nat /\
  length (candidates s) = (7 - size (badLeaves s))%nat.
Proof.
  intros s. assert (Hr : Reachable s) by apply reachable_run.
  split; [exact Hr|]. split; [vm_compute; reflexivity|].
  exact (proj1 (proj2 (candidates_are_healthy_leaves s Hr))).
Defined.

Lemma growthTotal_le_count springs (bad : gset nat) (n : nat) :
  (forall i sp, springs !! i = Some sp -> i ∉ bad -> inUnit (scale sp)) ->
  (growthTotal springs bad n <=
   inject_Z (Z.of_nat (length
     (List.filter (fun i => negb (bool_decide (i ∈ bad))) (seq 0 n)))))%Q.
Proof.
  intros Hu. induction n as [|n IH].
  - change (growthTotal springs bad 0) with 0%Q. apply Qle_refl.
  - rewrite growthTotal_S, seq_S, List.filter_app, length_app, Nat2Z.inj_add,
      inject_Z_plus. cbn [List.filter Nat.add].
    destruct (bool_decide (n ∈ bad)) eqn:Hb; cbn [negb length].
    + change (inject_Z (Z.of_nat 0)) with 0%Q.
      destruct (springs !! n); lra.
    + change (inject_Z (Z.of_nat 1)) with 1%Q.
      destruct (springs !! n) as [sp|] eqn:Hn; [|lra].
      apply bool_decide_eq_false in Hb. destruct (Hu n sp Hn Hb). lra.
Qed.

Lemma growthTotal_all_bad springs (bad : gset nat) (n : nat) :
  (forall i, (i < n)%nat -> i ∈ bad) ->
  growthTotal springs bad n = 0%Q.
Proof.
  intros H. induction n as [|n IH]; [reflexivity|].
  rewrite growthTotal_S, IH by (intros i Hi; apply H; lia).
  rewrite (bool_decide_eq_true_2 (n ∈ bad)) by (apply H; lia).
  now destruct (springs !! n).
Qed.

(** X25. The growth level a frame computes is at most the share of healthy
    leaves, [(7 - |unhealthy set|) / 7], when the scales it reads are in
    [[0,1]]; and with all seven leaves unhealthy it is 0 whatever the scales
    are. *)
Theorem growth_bounded_by_healthy_share (s : State) :
  Reachable s ->
  (healthyScalesInUnit s ->
   (0 <= growthLevel (animate s) /\
    growthLevel (animate s) <=
      inject_Z (Z.of_nat (7 - size (badLeaves s))) / 7)%Q) /\
  ((forall i, (i < 7)%nat -> i ∈ badLeaves s) ->
   (growthLevel (animate s) == 0)%Q).
Proof.
  intros Hr. pose proof (reachable_ShapeInv s Hr) as Hs.
  destruct (candidates_count s Hs) as [_ Hc].
  destruct Hs as (Hl & Hsp & Hb).
  unfold animate. fields. rewrite syncMeshes_length, Hl. unfold leafTotal.
  split.
  - intros Hu.
    destruct (growthTotal_bounds (leafSprings s) (badLeaves s) 7 Hu) as [H0 _].
    pose proof (growthTotal_le_count (leafSprings s) (badLeaves s) 7 Hu) as H1.
    assert (E : length (List.filter (fun i => negb (bool_decide (i ∈ badLeaves s)))
                          (seq 0 7)) = (7 - size (badLeaves s))%nat).
    { unfold candidates in Hc. rewrite Hl in Hc. lia. }
    rewrite E in H1.
    split; [apply Qle_shift_div_l; lra|].
    set (c := inject_Z (Z.of_nat (7 - size (badLeaves s)))) in *.
    apply Qle_shift_div_r; [lra|].
    assert (E7 : (c / 7 * 7 == c)%Q) by field. lra.
  - intros Hall. rewrite growthTotal_all_bad by exact Hall. reflexivity.
Qed.

Lemma growth_bounded_by_healthy_share_witness :
  Reachable allBad /\ (forall i, (i < 7)%nat -> i ∈ badLeaves allBad) /\
  (growthLevel (animate allBad) == 0)%Q.
Proof.
  assert (Hr : Reachable allBad) by apply reachable_run.
  assert (Hall : forall i, (i < 7)%nat -> i ∈ badLeaves allBad).
  { intros i Hi.
    do 7 (destruct i as [|i];
          [apply (bool_decide_eq_true_1 _); vm_compute; reflexivity|]).
    lia. }
  split; [exact Hr|]. split; [exact Hall|].
  exact (proj2 (growth_bounded_by_healthy_share allBad Hr) Hall).
Defined.
